(** * Label Printer Server: the example client and the job queue it talks to

    [examples/example.py] is a demonstration client.  Every function of it
    prints a banner, issues one HTTP request with [requests], decodes the JSON
    body of the answer, prints it and returns it; [main] chains these calls
    inside one [try] block.

    The client is embedded as a state-and-error monad over
      - the log of calls made to the outside world ([requests.get],
        [requests.post], [time.sleep]), and
      - the lines written with [print].
    The outside world is an oracle: for the history of calls so far and the
    current call it says what the call returns or which exception it raises.
    Quantifying over the oracle covers every behaviour of the server and of
    the network. *)

From Stdlib Require Import ZArith String Ascii List Bool Lia PrimFloat.
Import ListNotations.
Open Scope string_scope.
Open Scope Z_scope.
Open Scope list_scope.

(** ** Python values *)

Local Set Warnings "-register-all".

(** The values the client handles are those [json] decodes to and encodes
    from.  A [dict] keeps its items in insertion order; its keys are strings.
    A [str] is kept as its UTF-8 bytes, a surrogate code point as the three
    bytes the [surrogatepass] handler gives it ([ED A0..BF xx]). *)
Inductive pyval : Type :=
| PNone
| PBool (b : bool)
| PInt (n : Z)
| PFloat (f : float)
| PStr (s : string)
| PList (l : list pyval)
| PDict (items : list (string * pyval)).

(** The exceptions that matter to [main]'s two [except] clauses.
    [requests.exceptions.ConnectionError] is the class the first clause names;
    [KeyboardInterrupt] and [SystemExit] derive from [BaseException] only, so
    [except Exception] does not catch them. *)
Inductive exn : Type :=
| RequestsConnectionError (msg : string)
| KeyError (key : pyval)
| IndexError (msg : string)
| TypeError (msg : string)
| AttributeError (msg : string)
| OtherException (cls msg : string)
| KeyboardInterrupt
| SystemExit (code : Z).

Definition is_requests_ConnectionError (e : exn) : bool :=
  match e with RequestsConnectionError _ => true | _ => false end.

Definition is_Exception (e : exn) : bool :=
  match e with KeyboardInterrupt | SystemExit _ => false | _ => true end.

Definition is_LookupError (e : exn) : bool :=
  match e with KeyError _ | IndexError _ => true | _ => false end.

Inductive result (A : Type) : Type :=
| Ok (a : A)
| Raise (e : exn).
Arguments Ok {A} a.
Arguments Raise {A} e.

(** *** Truthiness, [len], [.get] and subscripting *)

Definition truthy (v : pyval) : bool :=
  match v with
  | PNone => false
  | PBool b => b
  | PInt n => negb (n =? 0)
  | PFloat f => negb (PrimFloat.eqb f 0%float)
  | PStr s => negb (String.eqb s "")
  | PList l => match l with [] => false | _ => true end
  | PDict items => match items with [] => false | _ => true end
  end.

Fixpoint lookup (k : string) (items : list (string * pyval)) : option pyval :=
  match items with
  | [] => None
  | (k', v) :: rest => if String.eqb k k' then Some v else lookup k rest
  end.

Definition keys (items : list (string * pyval)) : list string := map fst items.

(** [v.get(k)]: only a [dict] has the method. *)
Definition py_get (v : pyval) (k : string) : result pyval :=
  match v with
  | PDict items => Ok (match lookup k items with Some x => x | None => PNone end)
  | _ => Raise (AttributeError "object has no attribute 'get'")
  end.

(** [v[k]] for a string [k]. *)
Definition py_getitem (v : pyval) (k : string) : result pyval :=
  match v with
  | PDict items =>
      match lookup k items with
      | Some x => Ok x
      | None => Raise (KeyError (PStr k))
      end
  | PList _ => Raise (TypeError "list indices must be integers or slices, not str")
  | PStr _ => Raise (TypeError "string indices must be integers, not 'str'")
  | _ => Raise (TypeError "object is not subscriptable")
  end.

(** [v[0]]. *)
Definition py_getitem0 (v : pyval) : result pyval :=
  match v with
  | PList l =>
      match l with
      | x :: _ => Ok x
      | [] => Raise (IndexError "list index out of range")
      end
  | PStr s =>
      match s with
      | String c _ => Ok (PStr (String c EmptyString))
      | EmptyString => Raise (IndexError "string index out of range")
      end
  | PDict _ => Raise (KeyError (PInt 0))
  | _ => Raise (TypeError "object is not subscriptable")
  end.

(** [len(v)]. *)
Definition py_len (v : pyval) : result Z :=
  match v with
  | PList l => Ok (Z.of_nat (List.length l))
  | PStr s => Ok (Z.of_nat (String.length s))
  | PDict items => Ok (Z.of_nat (List.length items))
  | _ => Raise (TypeError "object has no len()")
  end.

(** ** Text: f-strings, URLs and printed lines *)

(** A formatted string is kept as its pieces, so that no number or JSON
    formatting has to be chosen: a literal, [str(v)], [json.dumps(v, indent=2)]
    or [str(error)]. *)
Inductive piece : Type :=
| Lit (s : string)
| StrOf (v : pyval)
| DumpsOf (v : pyval)
| StrOfExn (e : exn).

Definition text : Type := list piece.

Definition nl : string := String (ascii_of_nat 10) EmptyString.

Definition API_URL : string := "http://localhost:3000".

(** *** When a line cannot be printed *)

(** [sys.int_max_str_digits]: [str()] of an integer with more decimal digits
    raises [ValueError] (CPython 3.11 and the releases patched like it). *)
Definition int_max_str_digits : Z := 4300.

Definition str_too_long (n : Z) : bool :=
  10 ^ int_max_str_digits <=? Z.abs n.

(** [str(v)] raises: [v] is such an integer, or a list or dict that holds
    one (their [str] is the [repr] of their elements). *)
Fixpoint has_huge_int (v : pyval) : bool :=
  match v with
  | PInt n => str_too_long n
  | PList l => existsb has_huge_int l
  | PDict items => existsb (fun '(_, x) => has_huge_int x) items
  | _ => false
  end.

(** The string holds a surrogate code point: a byte [ED] followed by a byte
    from [A0] on.  A UTF-8 stream refuses to encode it. *)
Fixpoint has_surrogate (s : string) : bool :=
  match s with
  | EmptyString => false
  | String c rest =>
      match rest with
      | EmptyString => false
      | String d _ =>
          (Ascii.eqb c (ascii_of_nat 237) && (160 <=? nat_of_ascii d)%nat)
          || has_surrogate rest
      end
  end.

Definition ValueError_int_str : exn :=
  OtherException "ValueError"
    "Exceeds the limit (4300 digits) for integer string conversion".

Definition UnicodeEncodeError_surrogate : exn :=
  OtherException "UnicodeEncodeError" "surrogates not allowed".

(** Building the piece of an f-string: only [str()] of a value can fail.
    The values handed to [json.dumps] are those [.json()] returned, and the
    literals are constants. *)
Definition format_error (p : piece) : option exn :=
  match p with
  | StrOf v => if has_huge_int v then Some ValueError_int_str else None
  | _ => None
  end.

(** Writing the piece to standard output, taken to be a UTF-8 stream: the
    literals and [json.dumps] are ASCII, [str()] of a list or dict escapes
    what it holds, so only [str()] of a string can carry a surrogate. *)
Definition encode_error (p : piece) : option exn :=
  match p with
  | StrOf (PStr s) =>
      if has_surrogate s then Some UnicodeEncodeError_surrogate else None
  | _ => None
  end.

Fixpoint first_error (f : piece -> option exn) (line : text) : option exn :=
  match line with
  | [] => None
  | p :: rest =>
      match f p with
      | Some e => Some e
      | None => first_error f rest
      end
  end.

(** What [print(line)] raises, if anything: the line is formatted first,
    left to right, then encoded as a whole. *)
Definition print_error (line : text) : option exn :=
  match first_error format_error line with
  | Some e => Some e
  | None => first_error encode_error line
  end.

(** ** The outside world *)

Inductive method : Type := GET | POST.

(** One call of [requests.get] or [requests.post]: [json_body] is the [json=]
    argument, [params] the [params=] argument, [None] when not passed. *)
Record request : Type := mkRequest {
  meth : method;
  url : text;
  json_body : option pyval;
  params : option (list (string * pyval))
}.

Inductive call : Type :=
| CHttp (r : request)
| CSleep (seconds : Z).

(** A response object: all the client does with it is call [.json()]. *)
Record response : Type := mkResponse { json : result pyval }.

Record env : Type := mkEnv {
  http : list call -> request -> result response;
  sleeper : list call -> Z -> result unit
}.

Record state : Type := mkState {
  calls : list call;
  out : list text
}.

(** ** The monad *)

Definition M (A : Type) : Type := env -> state -> result A * state.

Definition ret {A} (a : A) : M A := fun _ st => (Ok a, st).

Definition bind {A B} (m : M A) (k : A -> M B) : M B :=
  fun w st =>
    match m w st with
    | (Ok a, st') => k a w st'
    | (Raise e, st') => (Raise e, st')
    end.

Notation "x <- m ;; k" := (bind m (fun x => k))
  (at level 61, m at next level, right associativity).
Notation "m ;;; k" := (bind m (fun _ => k))
  (at level 61, right associativity).

Definition lift {A} (r : result A) : M A := fun _ st => (r, st).

(** [print(line)]: a line that cannot be formatted or encoded raises and
    writes nothing. *)
Definition print (line : text) : M unit :=
  fun _ st =>
    match print_error line with
    | Some e => (Raise e, st)
    | None => (Ok tt, mkState (calls st) (out st ++ [line]))
    end.

(** A call of [requests]: it is logged whether it returns or raises. *)
Definition send (r : request) : M response :=
  fun w st =>
    (http w (calls st) r, mkState (calls st ++ [CHttp r]) (out st)).

Definition requests_get (u : text) (ps : option (list (string * pyval))) : M response :=
  send (mkRequest GET u None ps).

Definition requests_post (u : text) (body : option pyval) : M response :=
  send (mkRequest POST u body None).

Definition response_json (r : response) : M pyval := lift (json r).

Definition time_sleep (seconds : Z) : M unit :=
  fun w st =>
    (sleeper w (calls st) seconds,
     mkState (calls st ++ [CSleep seconds]) (out st)).

(** [try: body except requests.exceptions.ConnectionError: h1
     except Exception as error: h2 error]. *)
Definition try_except (body : M unit) (h1 : M unit) (h2 : exn -> M unit) : M unit :=
  fun w st =>
    match body w st with
    | (Ok x, st') => (Ok x, st')
    | (Raise e, st') =>
        if is_requests_ConnectionError e then h1 w st'
        else if is_Exception e then h2 e w st'
        else (Raise e, st')
    end.

(** ** The client, function by function *)

Definition list_printers : M pyval :=
  print [Lit "Listing available printers..."] ;;;
  response <- requests_get [Lit API_URL; Lit "/printers"] None ;;
  result <- response_json response ;;
  print [DumpsOf result] ;;;
  ret result.

Definition connect_printer (vendor_id product_id : pyval) : M pyval :=
  print [Lit "Connecting to printer "; StrOf vendor_id; Lit ":";
         StrOf product_id; Lit "..."] ;;;
  response <- requests_post [Lit API_URL; Lit "/printers/connect"]
                (Some (PDict [("vendorId", vendor_id); ("productId", product_id)])) ;;
  result <- response_json response ;;
  print [DumpsOf result] ;;;
  ret result.

Definition get_printer_status : M pyval :=
  print [Lit "Getting printer status..."] ;;;
  response <- requests_get [Lit API_URL; Lit "/printers/status"] None ;;
  result <- response_json response ;;
  print [DumpsOf result] ;;;
  ret result.

Definition print_label (label_data : pyval) : M pyval :=
  print [Lit "Submitting print job..."] ;;;
  response <- requests_post [Lit API_URL; Lit "/print"] (Some label_data) ;;
  result <- response_json response ;;
  print [Lit "Job created: "; DumpsOf result] ;;;
  ret result.

Definition print_custom_tspl (tspl_commands : pyval) : M pyval :=
  print [Lit "Submitting custom TSPL job..."] ;;;
  response <- requests_post [Lit API_URL; Lit "/print/custom"]
                (Some (PDict [("tspl", tspl_commands)])) ;;
  result <- response_json response ;;
  print [Lit "Job created: "; DumpsOf result] ;;;
  ret result.

Definition check_job_status (job_id : pyval) : M pyval :=
  print [Lit "Checking job "; StrOf job_id; Lit "..."] ;;;
  response <- requests_get [Lit API_URL; Lit "/jobs/"; StrOf job_id] None ;;
  result <- response_json response ;;
  print [DumpsOf result] ;;;
  ret result.

(** [def list_jobs(status=None, limit=None)]: an argument the caller leaves
    out takes its default, [None]. *)
Definition arg_or_default (a : option pyval) (default : pyval) : pyval :=
  match a with Some v => v | None => default end.

Definition list_jobs_params (status limit : pyval) : list (string * pyval) :=
  let params := [] in
  let params := if truthy status then params ++ [("status", status)] else params in
  let params := if truthy limit then params ++ [("limit", limit)] else params in
  params.

Definition list_jobs (status_arg limit_arg : option pyval) : M pyval :=
  let status := arg_or_default status_arg PNone in
  let limit := arg_or_default limit_arg PNone in
  print [Lit "Listing jobs..."] ;;;
  response <- requests_get [Lit API_URL; Lit "/jobs"]
                (Some (list_jobs_params status limit)) ;;
  result <- response_json response ;;
  print [DumpsOf result] ;;;
  ret result.

Definition get_queue_stats : M pyval :=
  print [Lit "Getting queue statistics..."] ;;;
  response <- requests_get [Lit API_URL; Lit "/queue/stats"] None ;;
  result <- response_json response ;;
  print [DumpsOf result] ;;;
  ret result.

Definition clear_completed_jobs : M pyval :=
  print [Lit "Clearing completed jobs..."] ;;;
  response <- requests_post [Lit API_URL; Lit "/queue/clear"] None ;;
  result <- response_json response ;;
  print [DumpsOf result] ;;;
  ret result.

(** ** [main] *)

Definition separator : text := [Lit (nl ++ "---" ++ nl)%string].

(** The dict literal [main] hands to [print_label]. *)
Definition main_label_data : pyval :=
  PDict [("pageConfig", PStr "default");
         ("label", PDict [("qrData", PStr "https://example.com/product/ABC-123");
                          ("title", PStr "PRODUCT-ABC-123");
                          ("subtitle", PStr "Batch: 2026-01-15")]);
         ("quantity", PInt 1)].

(** [printers.get('printers') and len(printers['printers']) > 0], as the
    truth value the [if] sees. *)
Definition cond_has_printer (printers : pyval) : result bool :=
  match py_get printers "printers" with
  | Raise e => Raise e
  | Ok g =>
      if truthy g then
        match py_getitem printers "printers" with
        | Raise e => Raise e
        | Ok p =>
            match py_len p with
            | Raise e => Raise e
            | Ok n => Ok (0 <? n)
            end
        end
      else Ok false
  end.

(** [printers['printers'][0]]. *)
Definition expr_first_printer (printers : pyval) : result pyval :=
  match py_getitem printers "printers" with
  | Raise e => Raise e
  | Ok p => py_getitem0 p
  end.

(** [print_job.get('job') and print_job['job'].get('id')], as a truth value. *)
Definition cond_has_job_id (print_job : pyval) : result bool :=
  match py_get print_job "job" with
  | Raise e => Raise e
  | Ok g =>
      if truthy g then
        match py_getitem print_job "job" with
        | Raise e => Raise e
        | Ok j =>
            match py_get j "id" with
            | Raise e => Raise e
            | Ok i => Ok (truthy i)
            end
        end
      else Ok false
  end.

(** [print_job['job']['id']]. *)
Definition expr_job_id (print_job : pyval) : result pyval :=
  match py_getitem print_job "job" with
  | Raise e => Raise e
  | Ok j => py_getitem j "id"
  end.

(** The body of the [try] block. *)
Definition main_body : M unit :=
  print [Lit ("=== Label Printer API Example ===" ++ nl)%string] ;;;
  printers <- list_printers ;;
  print separator ;;;
  has_printer <- lift (cond_has_printer printers) ;;
  (if has_printer : bool then
     printer <- lift (expr_first_printer printers) ;;
     vendor_id <- lift (py_getitem printer "vendorId") ;;
     product_id <- lift (py_getitem printer "productId") ;;
     connect_printer vendor_id product_id ;;;
     print separator ;;;
     get_printer_status ;;;
     print separator
   else ret tt) ;;;
  print_job <- print_label main_label_data ;;
  print separator ;;;
  time_sleep 2 ;;;
  has_job_id <- lift (cond_has_job_id print_job) ;;
  (if has_job_id : bool then
     job_id <- lift (expr_job_id print_job) ;;
     check_job_status job_id ;;;
     print separator
   else ret tt) ;;;
  get_queue_stats ;;;
  print separator ;;;
  list_jobs None (Some (PInt 5)) ;;;
  print [Lit (nl ++ "=== Example completed ===")%string].

Definition main : M unit :=
  try_except main_body
    (print [Lit "Error: Could not connect to API server."] ;;;
     print [Lit "Make sure the Label Printer Server is running on port 3000."])
    (fun error => print [Lit "Error: "; StrOfExn error]).

(** ** The operations of the client API, as one family *)

Inductive api_op : Type :=
| OpListPrinters
| OpConnect (vendor_id product_id : pyval)
| OpStatus
| OpPrintLabel (label_data : pyval)
| OpPrintCustom (tspl_commands : pyval)
| OpCheckJob (job_id : pyval)
| OpListJobs (status_arg limit_arg : option pyval)
| OpStats
| OpClear.

Definition run_op (op : api_op) : M pyval :=
  match op with
  | OpListPrinters => list_printers
  | OpConnect v p => connect_printer v p
  | OpStatus => get_printer_status
  | OpPrintLabel d => print_label d
  | OpPrintCustom t => print_custom_tspl t
  | OpCheckJob i => check_job_status i
  | OpListJobs s l => list_jobs s l
  | OpStats => get_queue_stats
  | OpClear => clear_completed_jobs
  end.

(** The single request an operation issues. *)
Definition request_of (op : api_op) : request :=
  match op with
  | OpListPrinters => mkRequest GET [Lit API_URL; Lit "/printers"] None None
  | OpConnect v p =>
      mkRequest POST [Lit API_URL; Lit "/printers/connect"]
        (Some (PDict [("vendorId", v); ("productId", p)])) None
  | OpStatus => mkRequest GET [Lit API_URL; Lit "/printers/status"] None None
  | OpPrintLabel d => mkRequest POST [Lit API_URL; Lit "/print"] (Some d) None
  | OpPrintCustom t =>
      mkRequest POST [Lit API_URL; Lit "/print/custom"]
        (Some (PDict [("tspl", t)])) None
  | OpCheckJob i => mkRequest GET [Lit API_URL; Lit "/jobs/"; StrOf i] None None
  | OpListJobs s l =>
      mkRequest GET [Lit API_URL; Lit "/jobs"] None
        (Some (list_jobs_params (arg_or_default s PNone) (arg_or_default l PNone)))
  | OpStats => mkRequest GET [Lit API_URL; Lit "/queue/stats"] None None
  | OpClear => mkRequest POST [Lit API_URL; Lit "/queue/clear"] None None
  end.

(** The line printed before the request. *)
Definition banner_of (op : api_op) : text :=
  match op with
  | OpListPrinters => [Lit "Listing available printers..."]
  | OpConnect v p =>
      [Lit "Connecting to printer "; StrOf v; Lit ":"; StrOf p; Lit "..."]
  | OpStatus => [Lit "Getting printer status..."]
  | OpPrintLabel _ => [Lit "Submitting print job..."]
  | OpPrintCustom _ => [Lit "Submitting custom TSPL job..."]
  | OpCheckJob i => [Lit "Checking job "; StrOf i; Lit "..."]
  | OpListJobs _ _ => [Lit "Listing jobs..."]
  | OpStats => [Lit "Getting queue statistics..."]
  | OpClear => [Lit "Clearing completed jobs..."]
  end.

(** The line that echoes the decoded answer. *)
Definition echo_of (op : api_op) (v : pyval) : text :=
  match op with
  | OpPrintLabel _ | OpPrintCustom _ => [Lit "Job created: "; DumpsOf v]
  | _ => [DumpsOf v]
  end.

(** What any operation amounts to: banner, one request, decode, echo,
    return; a banner that cannot be printed ends it before the request. *)
Definition round_trip (op : api_op) : M pyval :=
  fun w st =>
    match print_error (banner_of op) with
    | Some e => (Raise e, st)
    | None =>
        let st1 := mkState (calls st ++ [CHttp (request_of op)])
                           (out st ++ [banner_of op]) in
        match http w (calls st) (request_of op) with
        | Raise e => (Raise e, st1)
        | Ok resp =>
            match json resp with
            | Raise e => (Raise e, st1)
            | Ok v => (Ok v, mkState (calls st1) (out st1 ++ [echo_of op v]))
            end
        end
    end.


Definition is_supplied (a : option pyval) : bool :=
  match a with Some _ => true | None => false end.

Definition initial : state := mkState [] [].

(** ** Vocabulary for statements about [main] *)

(** The calls made between two states. *)
Definition new_calls (st st' : state) : list call :=
  skipn (List.length (calls st)) (calls st').

(** The oracle raises [e] at some call: from [requests.get]/[requests.post],
    from [.json()], or from [time.sleep]. *)
Definition raised_by_env (w : env) (e : exn) : Prop :=
  (exists h r, http w h r = Raise e) \/
  (exists h r resp, http w h r = Ok resp /\ json resp = Raise e) \/
  (exists h s, sleeper w h s = Raise e).

(** Every exception the outside world raises derives from [Exception]. *)
Definition raises_only_Exception (w : env) : Prop :=
  forall e, raised_by_env w e -> is_Exception e = true.

(** Raised by the outside world, or an [Exception]. *)
Definition env_or_Exception (w : env) (e : exn) : Prop :=
  raised_by_env w e \/ is_Exception e = true.

(** The operations [main] may run, with the arguments it gives them. *)
Definition main_op (op : api_op) : Prop :=
  match op with
  | OpPrintLabel d => d = main_label_data
  | OpListJobs s l => s = None /\ l = Some (PInt 5)
  | OpPrintCustom _ | OpClear => False
  | _ => True
  end.

Definition main_call (c : call) : Prop :=
  c = CSleep 2 \/ exists op, c = CHttp (request_of op) /\ main_op op.

(** The same, for the part of [main] after the connect block. *)
Definition late_op (op : api_op) : Prop :=
  match op with
  | OpPrintLabel d => d = main_label_data
  | OpListJobs s l => s = None /\ l = Some (PInt 5)
  | OpCheckJob _ | OpStats => True
  | _ => False
  end.

Definition late_call (c : call) : Prop :=
  c = CSleep 2 \/ exists op, c = CHttp (request_of op) /\ late_op op.

(** [m] only makes calls that satisfy [C]. *)
Definition emits {A} (C : call -> Prop) (m : M A) : Prop :=
  forall w st, exists new,
    calls (snd (m w st)) = calls st ++ new /\ Forall C new.

(** Whatever [m] raises under [w] satisfies [E]. *)
Definition raises {A} (w : env) (E : exn -> Prop) (m : M A) : Prop :=
  forall st e st', m w st = (Raise e, st') -> E e.

(** The connect block of [main] (step 2) and what follows it (steps 3 to 7). *)
Definition main_connect_block (printers : pyval) (has_printer : bool) : M unit :=
  if has_printer then
    printer <- lift (expr_first_printer printers) ;;
    vendor_id <- lift (py_getitem printer "vendorId") ;;
    product_id <- lift (py_getitem printer "productId") ;;
    connect_printer vendor_id product_id ;;;
    print separator ;;;
    get_printer_status ;;;
    print separator
  else ret tt.

(** Steps 1 and 2 of [main]. *)
Definition main_before_submit : M unit :=
  print [Lit ("=== Label Printer API Example ===" ++ nl)%string] ;;;
  printers <- list_printers ;;
  print separator ;;;
  has_printer <- lift (cond_has_printer printers) ;;
  main_connect_block printers has_printer.

Definition main_after_submit (print_job : pyval) : M unit :=
  print separator ;;;
  time_sleep 2 ;;;
  has_job_id <- lift (cond_has_job_id print_job) ;;
  (if has_job_id : bool then
     job_id <- lift (expr_job_id print_job) ;;
     check_job_status job_id ;;;
     print separator
   else ret tt) ;;;
  get_queue_stats ;;;
  print separator ;;;
  list_jobs None (Some (PInt 5)) ;;;
  print [Lit (nl ++ "=== Example completed ===")%string].

Definition main_from_submit : M unit :=
  print_job <- print_label main_label_data ;;
  main_after_submit print_job.

(** The shape the interface table gives a structured job:
    [{pageConfig, label:{qrData, title, subtitle}, quantity}]. *)
Definition structured_job_shape (v : pyval) : Prop :=
  exists pc lbl qty qr ti su,
    v = PDict [("pageConfig", pc); ("label", lbl); ("quantity", qty)] /\
    lbl = PDict [("qrData", qr); ("title", ti); ("subtitle", su)].

(** The shape the interface table gives a raw job: [{commandSequence}]. *)
Definition raw_job_shape (field : string) (payload v : pyval) : Prop :=
  v = PDict [(field, payload)].

(** ** Concrete worlds used as examples *)

Definition answer (v : pyval) : result response := Ok (mkResponse (Ok v)).

(** A world that answers every request with the same value and never fails. *)
Definition constant_world (v : pyval) : env :=
  mkEnv (fun _ _ => answer v) (fun _ _ => Ok tt).

(** Nothing listens on port 3000. *)
Definition server_down : env :=
  mkEnv (fun _ _ => Raise (RequestsConnectionError "connection refused"))
        (fun _ _ => Ok tt).

(** The user presses Ctrl-C while the first request is in flight. *)
Definition interrupted_world : env :=
  mkEnv (fun _ _ => Raise KeyboardInterrupt) (fun _ _ => Ok tt).

(** The user presses Ctrl-C during [time.sleep(2)]; the server answers [{}]
    to everything. *)
Definition interrupted_sleep_world : env :=
  mkEnv (fun _ _ => answer (PDict [])) (fun _ _ => Raise KeyboardInterrupt).

(** A server that lists one printer entry without identifiers. *)
Definition anonymous_printer_world : env :=
  constant_world (PDict [("printers", PList [PDict []])]).

(** A server whose ['printers'] entry is an object rather than a list. *)
Definition printers_object_world : env :=
  constant_world (PDict [("printers", PDict [("first", PDict [])])]).

(** ** The itinerary of [main] *)

(** The two calls of the connect block (step 2). *)
Definition connect_block (vendor_id product_id : pyval) : list call :=
  [CHttp (request_of (OpConnect vendor_id product_id));
   CHttp (request_of OpStatus)].

(** The calls of a complete run of [main], in order: [c] is the connect
    block or nothing, [j] the job-status check or nothing. *)
Definition main_itinerary (c j : list call) : list call :=
  CHttp (request_of OpListPrinters) :: c ++
  CHttp (request_of (OpPrintLabel main_label_data)) :: CSleep 2 :: j ++
  [CHttp (request_of OpStats);
   CHttp (request_of (OpListJobs None (Some (PInt 5))))].

(** The lines printed between two states. *)
Definition new_out (st st' : state) : list text :=
  skipn (List.length (out st)) (out st').

Definition completed_line : text :=
  [Lit (nl ++ "=== Example completed ===")%string].

(** A value on which [len()] is undefined although it is truthy. *)
Definition truthy_unsized (v : pyval) : bool :=
  match v with
  | PBool _ | PInt _ | PFloat _ => truthy v
  | _ => false
  end.

(** The listing answered the first request of the run with a first printer
    whose identifiers are [v] and [p]. *)
Definition printer_ids_from_listing (w : env) (st : state) (v p : pyval) : Prop :=
  exists resp printers printer,
    http w (calls st) (request_of OpListPrinters) = Ok resp /\
    json resp = Ok printers /\
    cond_has_printer printers = Ok true /\
    expr_first_printer printers = Ok printer /\
    py_getitem printer "vendorId" = Ok v /\
    py_getitem printer "productId" = Ok p.

(** Some submit request of [main] was answered with a job whose id is [i]. *)
Definition job_id_from_submit (w : env) (i : pyval) : Prop :=
  exists h resp print_job,
    http w h (request_of (OpPrintLabel main_label_data)) = Ok resp /\
    json resp = Ok print_job /\
    cond_has_job_id print_job = Ok true /\
    expr_job_id print_job = Ok i.

(** A world that answers every request with [v] and, asked for the printers,
    lists [listing]. *)
Definition listing_world (listing v : pyval) : env :=
  mkEnv (fun h _ => match h with [] => answer listing | _ => answer v end)
        (fun _ _ => Ok tt).

(** The outside world answered the call [c], made after the calls [h]. *)
Definition call_answered (w : env) (h : list call) (c : call) : Prop :=
  match c with
  | CHttp r => exists resp v, http w h r = Ok resp /\ json resp = Ok v
  | CSleep s => sleeper w h s = Ok tt
  end.

(** Every call of [cs], made in this order after [h], was answered, except
    possibly the last one. *)
Fixpoint all_but_last_answered (w : env) (h : list call) (cs : list call) : Prop :=
  match cs with
  | [] => True
  | c :: rest =>
      match rest with
      | [] => True
      | _ => call_answered w h c /\ all_but_last_answered w (h ++ [c]) rest
      end
  end.

Definition is_dict (v : pyval) : bool :=
  match v with PDict _ => true | _ => false end.

(** The exceptions the [try] body of [main] can raise of its own accord:
    [.get] on a value that is not an object, [len] or a subscript on a value
    that has none, [[0]] on an object, a first printer without [vendorId] or
    [productId], and a banner that cannot be printed. *)
Definition main_own_error (e : exn) : Prop :=
  e = AttributeError "object has no attribute 'get'" \/
  e = KeyError (PInt 0) \/
  e = KeyError (PStr "vendorId") \/
  e = KeyError (PStr "productId") \/
  e = ValueError_int_str \/
  e = UnicodeEncodeError_surrogate \/
  exists msg, e = TypeError msg.

(** * The job queue behind the API

    The client above only talks to the server; the queue that serves it is
    not part of [examples/example.py].  The definitions of this module follow
    the specification of the Job Queue (its sections 3, 4.2 and 4.3). *)

Module JobQueue.

(** Modelled from the spec: the job states of section 4.3; the server's own
    type is not in the client file. *)
Inductive status : Type := Queued | Processing | Completed | Failed.

(** Modelled from the spec: [kind] of section 3. *)
Inductive kind : Type := StructuredLabel | RawCommand.

(** Modelled from the spec: the structured label description of section 3
    (title, subtitle, QR data, page configuration, quantity). *)
Record label : Type := mkLabel {
  title : string;
  subtitle : string;
  qrData : string;
  pageConfig : string;
  quantity : Z
}.

(** Modelled from the spec: a payload is a structured label or a raw
    command-language blob. *)
Inductive payload : Type :=
| Structured (l : label)
| Raw (commands : string).

Definition kind_of (p : payload) : kind :=
  match p with Structured _ => StructuredLabel | Raw _ => RawCommand end.

(** Modelled from the spec: the Job record of section 3. *)
Record job : Type := mkJob {
  id : nat;
  job_kind : kind;
  job_payload : payload;
  job_status : status;
  createdAt : Z;
  startedAt : option Z;
  finishedAt : option Z;
  error : option string
}.

(** Modelled from the spec: the queue is an ordered sequence of jobs,
    oldest first, and a counter from which ids are assigned. *)
Record queue : Type := mkQueue {
  jobs : list job;
  next_id : nat
}.

Definition empty : queue := mkQueue [] 0.

Inductive failure : Type := ValidationError | NotFound.

Definition is_queued (j : job) : bool :=
  match job_status j with Queued => true | _ => false end.

Definition is_terminal (s : status) : bool :=
  match s with Completed | Failed => true | _ => false end.

Definition with_status (j : job) (s : status) (finished : option Z)
    (err : option string) : job :=
  mkJob (id j) (job_kind j) (job_payload j) s (createdAt j) (startedAt j)
        finished err.

(** Modelled from the spec: [enqueue] validates [quantity >= 1] for
    structured jobs and a non-empty payload for raw jobs. *)
Definition valid (p : payload) : bool :=
  match p with
  | Structured l => 1 <=? quantity l
  | Raw commands => negb (String.eqb commands "")
  end.

(** Modelled from the spec: [enqueue(kind, payload) -> Job.id] of section
    4.2: validate, assign the id, set [Queued] and [createdAt], append to the
    back.  A rejected submission creates no job. *)
Definition enqueue (now : Z) (p : payload) (q : queue) : failure + nat * queue :=
  if valid p then
    let j := mkJob (next_id q) (kind_of p) p Queued now None None None in
    inr (next_id q, mkQueue (jobs q ++ [j]) (S (next_id q)))
  else inl ValidationError.

Fixpoint take_first_queued (js : list job) : option (job * list job) :=
  match js with
  | [] => None
  | j :: rest =>
      if is_queued j then
        let j' := with_status j Processing (finishedAt j) (error j) in
        Some (j', j' :: rest)
      else
        match take_first_queued rest with
        | Some (x, rest') => Some (x, j :: rest')
        | None => None
        end
  end.

(** Modelled from the spec: [dequeueNext() -> Job | none] of section 4.2:
    the earliest [Queued] job, moved to [Processing], or none. *)
Definition dequeueNext (q : queue) : option (job * queue) :=
  match take_first_queued (jobs q) with
  | Some (j, js) => Some (j, mkQueue js (next_id q))
  | None => None
  end.

Fixpoint finish (now : Z) (i : nat) (s : status) (err : option string)
    (js : list job) : option (list job) :=
  match js with
  | [] => None
  | j :: rest =>
      if Nat.eqb (id j) i then
        match job_status j with
        | Processing => Some (with_status j s (Some now) err :: rest)
        | _ => None
        end
      else
        match finish now i s err rest with
        | Some rest' => Some (j :: rest')
        | None => None
        end
  end.

(** Modelled from the spec: [markCompleted(id)] of section 4.2 moves a
    [Processing] job to [Completed] and sets [finishedAt]; on any other job
    it changes nothing (no result). *)
Definition markCompleted (now : Z) (i : nat) (q : queue) : option queue :=
  match finish now i Completed None (jobs q) with
  | Some js => Some (mkQueue js (next_id q))
  | None => None
  end.

(** Modelled from the spec: [markFailed(id, error)] of section 4.2. *)
Definition markFailed (now : Z) (i : nat) (err : string) (q : queue) : option queue :=
  match finish now i Failed (Some err) (jobs q) with
  | Some js => Some (mkQueue js (next_id q))
  | None => None
  end.

(** Modelled from the spec: [clearCompleted() -> count] of section 4.2
    removes the jobs whose status is [Completed] or [Failed]. *)
Definition clearCompleted (q : queue) : nat * queue :=
  let kept := filter (fun j => negb (is_terminal (job_status j))) (jobs q) in
  (List.length (jobs q) - List.length kept, mkQueue kept (next_id q))%nat.

(** Modelled from the spec: [get(id)], read as the job's status. *)
Fixpoint status_in (i : nat) (js : list job) : option status :=
  match js with
  | [] => None
  | j :: rest => if Nat.eqb (id j) i then Some (job_status j) else status_in i rest
  end.

Definition status_of (i : nat) (q : queue) : option status :=
  status_in i (jobs q).

(** The mutating operations, as the requests the queue receives. *)
Inductive op : Type :=
| Enqueue (now : Z) (p : payload)
| DequeueNext
| MarkCompleted (now : Z) (i : nat)
| MarkFailed (now : Z) (i : nat) (err : string)
| ClearCompleted.

(** The queue after an operation; a rejected operation leaves it as it was. *)
Definition apply_op (o : op) (q : queue) : queue :=
  match o with
  | Enqueue now p =>
      match enqueue now p q with inr (_, q') => q' | inl _ => q end
  | DequeueNext =>
      match dequeueNext q with Some (_, q') => q' | None => q end
  | MarkCompleted now i =>
      match markCompleted now i q with Some q' => q' | None => q end
  | MarkFailed now i err =>
      match markFailed now i err q with Some q' => q' | None => q end
  | ClearCompleted => snd (clearCompleted q)
  end.

Definition run (os : list op) (q : queue) : queue :=
  fold_left (fun q o => apply_op o q) os q.

Inductive reachable : queue -> Prop :=
| reachable_empty : reachable empty
| reachable_step (o : op) (q : queue) :
    reachable q -> reachable (apply_op o q).

(** The transitions of section 4.3. *)
Inductive transition : status -> status -> Prop :=
| start_processing : transition Queued Processing
| complete : transition Processing Completed
| fail : transition Processing Failed.

Inductive transitions : status -> status -> Prop :=
| transitions_refl (s : status) : transitions s s
| transitions_step (s1 s2 s3 : status) :
    transition s1 s2 -> transitions s2 s3 -> transitions s1 s3.

(** A sequence of submissions: the ids handed out, in order, and the queue
    afterwards. *)
Fixpoint enqueue_all (ps : list (Z * payload)) (q : queue) : list nat * queue :=
  match ps with
  | [] => ([], q)
  | (now, p) :: rest =>
      match enqueue now p q with
      | inr (i, q') =>
          let (ids, q'') := enqueue_all rest q' in (i :: ids, q'')
      | inl _ => enqueue_all rest q
      end
  end.

(** Calling [dequeueNext] up to [fuel] times, until it returns none. *)
Fixpoint drain (fuel : nat) (q : queue) : list job * queue :=
  match fuel with
  | O => ([], q)
  | S fuel' =>
      match dequeueNext q with
      | Some (j, q') =>
          let (js, q'') := drain fuel' q' in (j :: js, q'')
      | None => ([], q)
      end
  end.

Definition queued_ids (q : queue) : list nat :=
  map id (filter is_queued (jobs q)).

(** Ids grow along the sequence and stay below the counter. *)
Fixpoint ascending (bound : nat) (ids : list nat) : Prop :=
  match ids with
  | [] => True
  | i :: rest =>
      (i < bound)%nat /\ Forall (fun x => (i < x)%nat) rest /\
      ascending bound rest
  end.

Definition well_formed (q : queue) : Prop :=
  ascending (next_id q) (map id (jobs q)).

End JobQueue.

(** * Properties of the single operations *)

Ltac unfold_client :=
  unfold list_printers, connect_printer, get_printer_status, print_label,
    print_custom_tspl, check_job_status, list_jobs, get_queue_stats,
    clear_completed_jobs, requests_get, requests_post, response_json,
    send, print, lift, ret, bind.

Lemma print_error_echo (op : api_op) (v : pyval) :
  print_error (echo_of op v) = None.
Proof. destruct op; reflexivity. Qed.


Lemma run_op_round_trip (op : api_op) (w : env) (st : state) :
  run_op op w st = round_trip op w st.
Proof.
  unfold round_trip.
  destruct op; unfold run_op; unfold_client;
    cbn [banner_of echo_of request_of calls out];
    match goal with
    | |- context [print_error ?l] => destruct (print_error l) as [e|]
    end; try reflexivity;
    match goal with
    | |- context [http w ?h ?r] => destruct (http w h r) as [resp|e]
    end; try reflexivity;
    destruct (json resp) as [v|e]; reflexivity.
Qed.

(** An operation whose banner prints issues exactly its one request. *)
Lemma run_op_calls (op : api_op) (w : env) (st : state) :
  print_error (banner_of op) = None ->
  calls (snd (run_op op w st)) = calls st ++ [CHttp (request_of op)].
Proof.
  intros Hb. rewrite run_op_round_trip. unfold round_trip. rewrite Hb.
  destruct (http w (calls st) (request_of op)) as [resp|e]; cbn; [|reflexivity].
  destruct (json resp); reflexivity.
Qed.

(** An operation whose banner does not print issues no request. *)
Lemma run_op_banner_fails (op : api_op) (w : env) (st : state) (e : exn) :
  print_error (banner_of op) = Some e -> run_op op w st = (Raise e, st).
Proof.
  intros Hb. rewrite run_op_round_trip. unfold round_trip. rewrite Hb.
  reflexivity.
Qed.

(** ** Equations for running a sequence, step by step *)

Lemma print_run (line : text) (w : env) (st : state) :
  print_error line = None ->
  print line w st = (Ok tt, mkState (calls st) (out st ++ [line])).
Proof. intros H. unfold print. rewrite H. reflexivity. Qed.

Lemma bind_print {A} (line : text) (k : unit -> M A) (w : env) (st : state) :
  print_error line = None ->
  bind (print line) k w st = k tt w (mkState (calls st) (out st ++ [line])).
Proof. intros H. unfold bind. rewrite (print_run line w st H). reflexivity. Qed.

Lemma bind_ret {A B} (a : A) (k : A -> M B) (w : env) (st : state) :
  bind (ret a) k w st = k a w st.
Proof. reflexivity. Qed.

Lemma bind_lift {A B} (r : result A) (k : A -> M B) (w : env) (st : state) :
  bind (lift r) k w st =
    match r with Ok a => k a w st | Raise e => (Raise e, st) end.
Proof. destruct r; reflexivity. Qed.

Lemma bind_assoc {A B C} (m : M A) (k : A -> M B) (h : B -> M C)
    (w : env) (st : state) :
  bind (bind m k) h w st = bind m (fun a => bind (k a) h) w st.
Proof. unfold bind. destruct (m w st) as [[a|e] st1]; reflexivity. Qed.

Lemma bind_run_op {B} (op : api_op) (k : pyval -> M B) (w : env) (st : state) :
  print_error (banner_of op) = None ->
  bind (run_op op) k w st =
    match http w (calls st) (request_of op) with
    | Raise e =>
        (Raise e, mkState (calls st ++ [CHttp (request_of op)])
                          (out st ++ [banner_of op]))
    | Ok resp =>
        match json resp with
        | Raise e =>
            (Raise e, mkState (calls st ++ [CHttp (request_of op)])
                              (out st ++ [banner_of op]))
        | Ok v =>
            k v w (mkState (calls st ++ [CHttp (request_of op)])
                           ((out st ++ [banner_of op]) ++ [echo_of op v]))
        end
    end.
Proof.
  intros Hb. unfold bind. rewrite run_op_round_trip. unfold round_trip.
  rewrite Hb.
  destruct (http w (calls st) (request_of op)) as [resp|e]; [|reflexivity].
  destruct (json resp); reflexivity.
Qed.

Lemma bind_run_op_fails {B} (op : api_op) (k : pyval -> M B) (w : env)
    (st : state) (e : exn) :
  print_error (banner_of op) = Some e ->
  bind (run_op op) k w st = (Raise e, st).
Proof.
  intros Hb. unfold bind. rewrite (run_op_banner_fails op w st e Hb).
  reflexivity.
Qed.

Lemma bind_time_sleep {B} (s : Z) (k : unit -> M B) (w : env) (st : state) :
  bind (time_sleep s) k w st =
    match sleeper w (calls st) s with
    | Ok _ => k tt w (mkState (calls st ++ [CSleep s]) (out st))
    | Raise e => (Raise e, mkState (calls st ++ [CSleep s]) (out st))
    end.
Proof.
  unfold bind, time_sleep. destruct (sleeper w (calls st) s) as [[]|e]; reflexivity.
Qed.

Lemma new_calls_app (st st' : state) (new : list call) :
  calls st' = calls st ++ new -> new_calls st st' = new.
Proof.
  intros H. unfold new_calls. rewrite H.
  rewrite skipn_app, skipn_all, Nat.sub_diag. reflexivity.
Qed.

Lemma new_calls_same (st : state) : new_calls st st = [].
Proof. apply new_calls_app. rewrite app_nil_r. reflexivity. Qed.




Lemma print_error_connect_ints (a b : Z) :
  print_error (banner_of (OpConnect (PInt a) (PInt b))) =
    if str_too_long a || str_too_long b then Some ValueError_int_str else None.
Proof.
  unfold print_error.
  cbn [banner_of first_error format_error encode_error has_huge_int].
  destruct (str_too_long a), (str_too_long b); reflexivity.
Qed.

(** C6, as the code has it: for every pair of integers of at most 4300
    decimal digits each, [connect_printer] issues exactly one request, a POST
    to [/printers/connect] whose JSON body is
    [{vendorId: vendor_id, productId: product_id}].  For a longer integer the
    banner cannot be formatted: the function raises [ValueError] and sends
    nothing. *)
Theorem connect_printer_body (vendor_id product_id : Z) (w : env) (st : state) :
  (Z.abs vendor_id < 10 ^ int_max_str_digits ->
   Z.abs product_id < 10 ^ int_max_str_digits ->
   new_calls st (snd (connect_printer (PInt vendor_id) (PInt product_id) w st)) =
     [CHttp (mkRequest POST [Lit API_URL; Lit "/printers/connect"]
               (Some (PDict [("vendorId", PInt vendor_id);
                             ("productId", PInt product_id)]))
               None)]) /\
  (10 ^ int_max_str_digits <= Z.abs vendor_id \/
   10 ^ int_max_str_digits <= Z.abs product_id ->
   connect_printer (PInt vendor_id) (PInt product_id) w st =
     (Raise ValueError_int_str, st)).
Proof.
  pose proof (print_error_connect_ints vendor_id product_id) as Hb.
  split.
  - intros Hv Hp. apply new_calls_app.
    apply (run_op_calls (OpConnect (PInt vendor_id) (PInt product_id)) w st).
    rewrite Hb. unfold str_too_long.
    apply Z.leb_gt in Hv. apply Z.leb_gt in Hp. rewrite Hv, Hp. reflexivity.
  - intros H.
    apply (run_op_banner_fails (OpConnect (PInt vendor_id) (PInt product_id)) w st).
    rewrite Hb. unfold str_too_long.
    destruct H as [H|H]; apply Z.leb_le in H; rewrite H;
      [reflexivity | rewrite orb_true_r; reflexivity].
Qed.

Lemma connect_printer_body_witness :
  Z.abs 1155 < 10 ^ int_max_str_digits /\
  Z.abs 22339 < 10 ^ int_max_str_digits /\
  new_calls initial
    (snd (connect_printer (PInt 1155) (PInt 22339) (constant_world PNone) initial)) =
    [CHttp (mkRequest POST [Lit API_URL; Lit "/printers/connect"]
              (Some (PDict [("vendorId", PInt 1155); ("productId", PInt 22339)]))
              None)].
Proof.
  assert (H1 : Z.abs 1155 < 10 ^ int_max_str_digits) by (vm_compute; reflexivity).
  assert (H2 : Z.abs 22339 < 10 ^ int_max_str_digits) by (vm_compute; reflexivity).
  split; [exact H1|]. split; [exact H2|].
  exact (proj1 (connect_printer_body 1155 22339 (constant_world PNone) initial)
           H1 H2).
Defined.

(** C6, as stated, fails: for the vendor id [10^4300], an integer, the
    banner [Connecting to printer ...] cannot be formatted, and
    [connect_printer] raises before [requests.post]: no request is sent. *)
Lemma connect_printer_huge_id_sends_nothing :
  connect_printer (PInt (10 ^ 4300)) (PInt 1) (constant_world PNone) initial =
    (Raise ValueError_int_str, initial) /\
  new_calls initial
    (snd (connect_printer (PInt (10 ^ 4300)) (PInt 1) (constant_world PNone) initial)) = [].
Proof. split; vm_compute; reflexivity. Qed.

(** C2, as the code has it: for every raw job submission the request is a
    POST to [/print/custom] whose JSON body is an object with the single field
    [tspl], carrying the raw command payload. *)
Theorem print_custom_tspl_body (tspl_commands : pyval) (w : env) (st : state) :
  exists items,
    new_calls st (snd (print_custom_tspl tspl_commands w st)) =
      [CHttp (mkRequest POST [Lit API_URL; Lit "/print/custom"]
                (Some (PDict items)) None)] /\
    keys items = ["tspl"] /\
    lookup "tspl" items = Some tspl_commands /\
    raw_job_shape "tspl" tspl_commands (PDict items).
Proof.
  exists [("tspl", tspl_commands)]. split; [|repeat split].
  apply new_calls_app.
  exact (run_op_calls (OpPrintCustom tspl_commands) w st eq_refl).
Qed.

(** C2, as stated, fails: the body sent for the raw payload ["CLS"] has no
    field named [commandSequence]; its only field is [tspl]. *)
Lemma print_custom_tspl_not_commandSequence :
  exists body,
    new_calls initial (snd (print_custom_tspl (PStr "CLS") (constant_world PNone) initial)) =
      [CHttp (mkRequest POST [Lit API_URL; Lit "/print/custom"] (Some body) None)] /\
    ~ raw_job_shape "commandSequence" (PStr "CLS") body /\
    py_getitem body "commandSequence" = Raise (KeyError (PStr "commandSequence")).
Proof.
  eexists. split; [reflexivity|]. split; [|reflexivity].
  unfold raw_job_shape. intros H. discriminate H.
Qed.

(** ** [list_jobs] and its query parameters *)

Lemma list_jobs_calls (status_arg limit_arg : option pyval) (w : env) (st : state) :
  new_calls st (snd (list_jobs status_arg limit_arg w st)) =
    [CHttp (mkRequest GET [Lit API_URL; Lit "/jobs"] None
              (Some (list_jobs_params (arg_or_default status_arg PNone)
                                      (arg_or_default limit_arg PNone))))].
Proof.
  apply new_calls_app.
  exact (run_op_calls (OpListJobs status_arg limit_arg) w st eq_refl).
Qed.

Lemma list_jobs_params_cases (status limit : pyval) :
  list_jobs_params status limit =
    (if truthy status then [("status", status)] else []) ++
    (if truthy limit then [("limit", limit)] else []).
Proof.
  unfold list_jobs_params. destruct (truthy status), (truthy limit); reflexivity.
Qed.

Lemma list_jobs_params_status (status limit : pyval) :
  lookup "status" (list_jobs_params status limit) =
    if truthy status then Some status else None.
Proof.
  rewrite list_jobs_params_cases.
  destruct (truthy status), (truthy limit); reflexivity.
Qed.

Lemma list_jobs_params_limit (status limit : pyval) :
  lookup "limit" (list_jobs_params status limit) =
    if truthy limit then Some limit else None.
Proof.
  rewrite list_jobs_params_cases.
  destruct (truthy status), (truthy limit); reflexivity.
Qed.

Lemma list_jobs_params_keys (status limit : pyval) :
  keys (list_jobs_params status limit) =
    (if truthy status then ["status"] else []) ++
    (if truthy limit then ["limit"] else []).
Proof.
  rewrite list_jobs_params_cases.
  destruct (truthy status), (truthy limit); reflexivity.
Qed.

(** C7, as the code has it: [list_jobs] issues one GET to [/jobs] and always
    passes a [params] dict.  The dict has the key [status] exactly when the
    status argument is truthy, then with that value, and the key [limit]
    exactly when the limit argument is truthy, then with that value; it has no
    other key, and it is empty when neither argument is supplied. *)
Theorem list_jobs_optional_params (status_arg limit_arg : option pyval)
    (w : env) (st : state) :
  let status := arg_or_default status_arg PNone in
  let limit := arg_or_default limit_arg PNone in
  exists ps,
    new_calls st (snd (list_jobs status_arg limit_arg w st)) =
      [CHttp (mkRequest GET [Lit API_URL; Lit "/jobs"] None (Some ps))] /\
    (In "status" (keys ps) <-> truthy status = true) /\
    (In "limit" (keys ps) <-> truthy limit = true) /\
    lookup "status" ps = (if truthy status then Some status else None) /\
    lookup "limit" ps = (if truthy limit then Some limit else None) /\
    (forall k, In k (keys ps) -> k = "status" \/ k = "limit") /\
    (is_supplied status_arg = false -> is_supplied limit_arg = false -> ps = []).
Proof.
  intros status limit.
  exists (list_jobs_params status limit).
  split; [apply list_jobs_calls|].
  split; [|split; [|split; [|split; [|split]]]].
  - rewrite list_jobs_params_keys.
    destruct (truthy status), (truthy limit); cbn; intuition congruence.
  - rewrite list_jobs_params_keys.
    destruct (truthy status), (truthy limit); cbn; intuition congruence.
  - apply list_jobs_params_status.
  - apply list_jobs_params_limit.
  - intros k. rewrite list_jobs_params_keys.
    destruct (truthy status), (truthy limit); cbn; intuition.
  - subst status limit.
    destruct status_arg, limit_arg; cbn; intros; try discriminate; reflexivity.
Qed.

(** C7, as stated, fails: a status argument is supplied (the empty string),
    and so is a limit argument (zero), yet the request carries neither
    parameter. *)
Lemma list_jobs_supplied_but_absent :
  is_supplied (Some (PStr "")) = true /\
  is_supplied (Some (PInt 0)) = true /\
  new_calls initial
    (snd (list_jobs (Some (PStr "")) (Some (PInt 0)) (constant_world PNone) initial)) =
    [CHttp (mkRequest GET [Lit API_URL; Lit "/jobs"] None (Some []))] /\
  ~ In "status" (keys (list_jobs_params (PStr "") (PInt 0))) /\
  ~ In "limit" (keys (list_jobs_params (PStr "") (PInt 0))).
Proof.
  repeat split; cbn; tauto.
Qed.

(** C8: inclusion is decided by truthiness.  With [limit=0] the request is
    the one sent with no limit at all, and with [status=""] it is the one
    sent with no status at all: the parameter is omitted entirely, whatever
    the other argument is. *)
Theorem list_jobs_falsy_arguments_omitted (other : option pyval)
    (w : env) (st : state) :
  (new_calls st (snd (list_jobs other (Some (PInt 0)) w st)) =
     new_calls st (snd (list_jobs other None w st)) /\
   lookup "limit" (list_jobs_params (arg_or_default other PNone) (PInt 0)) = None /\
   ~ In "limit" (keys (list_jobs_params (arg_or_default other PNone) (PInt 0)))) /\
  (new_calls st (snd (list_jobs (Some (PStr "")) other w st)) =
     new_calls st (snd (list_jobs None other w st)) /\
   lookup "status" (list_jobs_params (PStr "") (arg_or_default other PNone)) = None /\
   ~ In "status" (keys (list_jobs_params (PStr "") (arg_or_default other PNone)))) /\
  new_calls st (snd (list_jobs (Some (PStr "")) (Some (PInt 0)) w st)) =
    [CHttp (mkRequest GET [Lit API_URL; Lit "/jobs"] None (Some []))].
Proof.
  rewrite !list_jobs_calls. cbn [arg_or_default].
  rewrite !list_jobs_params_keys, list_jobs_params_status, list_jobs_params_limit.
  rewrite !list_jobs_params_cases. cbn [truthy Z.eqb String.eqb negb].
  destruct (truthy (arg_or_default other PNone)); cbn; intuition congruence.
Qed.

(** * A small logic for the calls a computation makes and what it raises *)

Section Emits.
Variable C : call -> Prop.

Lemma emits_ret {A} (a : A) : emits C (ret a).
Proof. intros w st. exists []. cbn. rewrite app_nil_r. auto. Qed.

Lemma emits_lift {A} (r : result A) : emits C (lift r).
Proof. intros w st. exists []. cbn. rewrite app_nil_r. auto. Qed.

Lemma emits_print (line : text) : emits C (print line).
Proof.
  intros w st. exists []. unfold print.
  destruct (print_error line); cbn; rewrite app_nil_r; auto.
Qed.

Lemma emits_time_sleep (s : Z) : C (CSleep s) -> emits C (time_sleep s).
Proof. intros H w st. exists [CSleep s]. cbn. auto. Qed.

Lemma emits_run_op (op : api_op) :
  C (CHttp (request_of op)) -> emits C (run_op op).
Proof.
  intros H w st. destruct (print_error (banner_of op)) as [e|] eqn:Hb.
  - exists []. rewrite (run_op_banner_fails op w st e Hb). cbn.
    rewrite app_nil_r. auto.
  - exists [CHttp (request_of op)].
    split; [apply run_op_calls; exact Hb | auto].
Qed.

Lemma emits_bind {A B} (m : M A) (k : A -> M B) :
  emits C m -> (forall a, emits C (k a)) -> emits C (bind m k).
Proof.
  intros Hm Hk w st. unfold bind.
  destruct (Hm w st) as [n1 [E1 F1]].
  destruct (m w st) as [[a|e] st1]; cbn in *.
  - destruct (Hk a w st1) as [n2 [E2 F2]].
    exists (n1 ++ n2). rewrite E2, E1, app_assoc.
    split; [reflexivity | apply Forall_app; auto].
  - exists n1. auto.
Qed.

Lemma emits_if {A} (b : bool) (m1 m2 : M A) :
  emits C m1 -> emits C m2 -> emits C (if b then m1 else m2).
Proof. destruct b; auto. Qed.

Lemma emits_try_except (body h1 : M unit) (h2 : exn -> M unit) :
  emits C body -> emits C h1 -> (forall e, emits C (h2 e)) ->
  emits C (try_except body h1 h2).
Proof.
  intros Hb H1 H2 w st. unfold try_except.
  destruct (Hb w st) as [n1 [E1 F1]].
  destruct (body w st) as [[x|e] st1]; cbn in *.
  - exists n1. auto.
  - destruct (is_requests_ConnectionError e).
    + destruct (H1 w st1) as [n2 [E2 F2]].
      exists (n1 ++ n2). rewrite E2, E1, app_assoc.
      split; [reflexivity | apply Forall_app; auto].
    + destruct (is_Exception e).
      * destruct (H2 e w st1) as [n2 [E2 F2]].
        exists (n1 ++ n2). rewrite E2, E1, app_assoc.
        split; [reflexivity | apply Forall_app; auto].
      * exists n1. auto.
Qed.
End Emits.

Lemma emits_weaken {A} (C D : call -> Prop) (m : M A) :
  (forall c, C c -> D c) -> emits C m -> emits D m.
Proof.
  intros H Hm w st. destruct (Hm w st) as [n [E F]].
  exists n. split; [exact E|]. eapply Forall_impl; eauto.
Qed.

Section Raises.
Variable w : env.
Variable E : exn -> Prop.

Lemma raises_ret {A} (a : A) : raises w E (ret a).
Proof. intros st e st' H. discriminate H. Qed.

Lemma raises_print (line : text) :
  (forall e, print_error line = Some e -> E e) -> raises w E (print line).
Proof.
  intros H st e st'. unfold print.
  destruct (print_error line) as [e0|]; [|discriminate].
  intros H0. inversion H0; subst. auto.
Qed.

Lemma raises_lift {A} (r : result A) :
  (forall e, r = Raise e -> E e) -> raises w E (lift r).
Proof. intros H st e st' H0. inversion H0. auto. Qed.

Lemma raises_time_sleep (s : Z) :
  (forall e, raised_by_env w e -> E e) -> raises w E (time_sleep s).
Proof.
  intros H st e st' H0. inversion H0. apply H.
  right. right. eauto.
Qed.

Lemma raises_run_op (op : api_op) :
  (forall e, raised_by_env w e -> E e) ->
  (forall e, print_error (banner_of op) = Some e -> E e) ->
  raises w E (run_op op).
Proof.
  intros H Hban st e st'. rewrite run_op_round_trip. unfold round_trip.
  destruct (print_error (banner_of op)) as [e1|] eqn:Hb.
  { intros H0. inversion H0; subst. auto. }
  destruct (http w (calls st) (request_of op)) as [resp|e0] eqn:Hh.
  - destruct (json resp) as [v|e0] eqn:Hj; intros H0; inversion H0; subst.
    apply H. right. left. eauto.
  - intros H0. inversion H0; subst. apply H. left. eauto.
Qed.

Lemma raises_bind {A B} (m : M A) (k : A -> M B) :
  raises w E m -> (forall a, raises w E (k a)) -> raises w E (bind m k).
Proof.
  intros Hm Hk st e st'. unfold bind.
  destruct (m w st) as [[a|e0] st1] eqn:Hr.
  - apply Hk.
  - intros H0. inversion H0; subst. eapply Hm; eauto.
Qed.

Lemma raises_if {A} (b : bool) (m1 m2 : M A) :
  raises w E m1 -> raises w E m2 -> raises w E (if b then m1 else m2).
Proof. destruct b; auto. Qed.
End Raises.

(** ** What printing can raise *)

Lemma first_error_some (f : piece -> option exn) (line : text) (e : exn) :
  first_error f line = Some e -> exists p, In p line /\ f p = Some e.
Proof.
  induction line as [|p rest IH]; cbn; [discriminate|].
  destruct (f p) as [e0|] eqn:Hp.
  - intros H. inversion H; subst. exists p. auto.
  - intros H. destruct (IH H) as [q [Hq Hf]]. exists q. auto.
Qed.

Lemma print_error_cases (line : text) (e : exn) :
  print_error line = Some e ->
  e = ValueError_int_str \/ e = UnicodeEncodeError_surrogate.
Proof.
  unfold print_error.
  destruct (first_error format_error line) as [e0|] eqn:Hf.
  - intros H. inversion H; subst.
    destruct (first_error_some _ _ _ Hf) as [p [_ Hp]].
    destruct p; cbn in Hp; try discriminate Hp.
    destruct (has_huge_int v); inversion Hp. auto.
  - intros H. destruct (first_error_some _ _ _ H) as [p [_ Hp]].
    destruct p as [|v| |]; cbn in Hp; try discriminate Hp.
    destruct v; try discriminate Hp.
    destruct (has_surrogate s); inversion Hp. auto.
Qed.

Lemma print_error_Exception (line : text) (e : exn) :
  print_error line = Some e ->
  is_Exception e = true /\ is_requests_ConnectionError e = false /\
  is_LookupError e = false.
Proof.
  intros H. destruct (print_error_cases line e H) as [->| ->]; auto.
Qed.

(** ** The lookups of [main] *)

Lemma py_get_raises (v : pyval) (k : string) (e : exn) :
  py_get v k = Raise e -> is_Exception e = true /\ is_LookupError e = false.
Proof. destruct v; cbn; intros H; inversion H; auto. Qed.

Lemma py_getitem_raises (v : pyval) (k : string) (e : exn) :
  py_getitem v k = Raise e -> is_Exception e = true.
Proof.
  destruct v; cbn; try (intros H; inversion H; reflexivity).
  destruct (lookup k items); intros H; inversion H; reflexivity.
Qed.

Lemma py_getitem0_raises (v : pyval) (e : exn) :
  py_getitem0 v = Raise e -> is_Exception e = true.
Proof.
  destruct v as [| | | |s|l|items]; cbn; try (intros H; inversion H; reflexivity).
  - destruct s; intros H; inversion H; reflexivity.
  - destruct l; intros H; inversion H; reflexivity.
Qed.

Lemma py_len_raises (v : pyval) (e : exn) :
  py_len v = Raise e -> is_Exception e = true.
Proof. destruct v; cbn; intros H; inversion H; reflexivity. Qed.

Lemma cond_has_printer_raises (printers : pyval) (e : exn) :
  cond_has_printer printers = Raise e -> is_Exception e = true.
Proof.
  unfold cond_has_printer.
  destruct (py_get printers "printers") as [g|e0] eqn:Hg.
  - destruct (truthy g); [|discriminate].
    destruct (py_getitem printers "printers") as [p|e1] eqn:Hp.
    + destruct (py_len p) as [n|e2] eqn:Hn; intros H; inversion H; subst.
      eapply py_len_raises; eauto.
    + intros H; inversion H; subst. eapply py_getitem_raises; eauto.
  - intros H; inversion H; subst. eapply py_get_raises; eauto.
Qed.

Lemma expr_first_printer_raises (printers : pyval) (e : exn) :
  expr_first_printer printers = Raise e -> is_Exception e = true.
Proof.
  unfold expr_first_printer.
  destruct (py_getitem printers "printers") as [p|e1] eqn:Hp.
  - apply py_getitem0_raises.
  - intros H; inversion H; subst. eapply py_getitem_raises; eauto.
Qed.

Lemma cond_has_job_id_raises (print_job : pyval) (e : exn) :
  cond_has_job_id print_job = Raise e -> is_Exception e = true.
Proof.
  unfold cond_has_job_id.
  destruct (py_get print_job "job") as [g|e0] eqn:Hg.
  - destruct (truthy g); [|discriminate].
    destruct (py_getitem print_job "job") as [j|e1] eqn:Hj.
    + destruct (py_get j "id") as [i|e2] eqn:Hi; intros H; inversion H; subst.
      eapply py_get_raises; eauto.
    + intros H; inversion H; subst. eapply py_getitem_raises; eauto.
  - intros H; inversion H; subst. eapply py_get_raises; eauto.
Qed.

Lemma expr_job_id_raises (print_job : pyval) (e : exn) :
  expr_job_id print_job = Raise e -> is_Exception e = true.
Proof.
  unfold expr_job_id.
  destruct (py_getitem print_job "job") as [j|e1] eqn:Hj.
  - apply py_getitem_raises.
  - intros H; inversion H; subst. eapply py_getitem_raises; eauto.
Qed.

(** * [main] as a whole *)

Lemma main_body_split :
  main_body =
    (print [Lit ("=== Label Printer API Example ===" ++ nl)%string] ;;;
     printers <- list_printers ;;
     print separator ;;;
     has_printer <- lift (cond_has_printer printers) ;;
     main_connect_block printers has_printer ;;;
     main_from_submit).
Proof. reflexivity. Qed.

Ltac emits_auto :=
  repeat first
    [ match goal with
      | |- emits _ list_printers => apply (emits_run_op _ OpListPrinters)
      | |- emits _ (connect_printer ?v ?p) => apply (emits_run_op _ (OpConnect v p))
      | |- emits _ get_printer_status => apply (emits_run_op _ OpStatus)
      | |- emits _ (print_label ?d) => apply (emits_run_op _ (OpPrintLabel d))
      | |- emits _ (check_job_status ?i) => apply (emits_run_op _ (OpCheckJob i))
      | |- emits _ get_queue_stats => apply (emits_run_op _ OpStats)
      | |- emits _ (list_jobs ?s ?l) => apply (emits_run_op _ (OpListJobs s l))
      | |- emits _ (time_sleep _) => apply emits_time_sleep
      | |- emits _ (print _) => apply emits_print
      | |- emits _ (ret _) => apply emits_ret
      | |- emits _ (lift _) => apply emits_lift
      | |- emits _ (if _ then _ else _) => apply emits_if
      | |- emits _ (bind _ _) => apply emits_bind; [|intro]
      end ].

Lemma main_after_submit_emits (print_job : pyval) :
  emits late_call (main_after_submit print_job).
Proof.
  unfold main_after_submit. emits_auto;
    first [ left; reflexivity
          | right; eexists; split; [reflexivity|]; cbn; auto ].
Qed.

Lemma main_from_submit_emits : emits late_call main_from_submit.
Proof.
  unfold main_from_submit. apply emits_bind.
  - apply (emits_run_op _ (OpPrintLabel main_label_data)).
    right. eexists; split; [reflexivity|]. reflexivity.
  - apply main_after_submit_emits.
Qed.

Lemma late_call_main_call (c : call) : late_call c -> main_call c.
Proof.
  intros [H|[op [H1 H2]]]; [left; exact H|].
  right. exists op. split; [exact H1|]. destruct op; cbn in *; auto.
Qed.

Lemma main_connect_block_emits (printers : pyval) (b : bool) :
  emits main_call (main_connect_block printers b).
Proof.
  unfold main_connect_block. emits_auto;
    right; eexists; (split; [reflexivity | exact I]).
Qed.

Lemma main_body_emits : emits main_call main_body.
Proof.
  rewrite main_body_split. emits_auto.
  - right. exists OpListPrinters. split; [reflexivity | exact I].
  - apply main_connect_block_emits.
  - eapply emits_weaken; [apply late_call_main_call | apply main_from_submit_emits].
Qed.

Lemma main_emits : emits main_call main.
Proof.
  unfold main. apply emits_try_except.
  - apply main_body_emits.
  - emits_auto.
  - intro e. emits_auto.
Qed.

(** The handlers only print: [main] makes the calls its body makes. *)
Lemma main_calls_body (w : env) (st : state) :
  calls (snd (main w st)) = calls (snd (main_body w st)).
Proof.
  unfold main, try_except.
  destruct (main_body w st) as [[x|e] st1]; cbn; [reflexivity|].
  destruct (is_requests_ConnectionError e); [reflexivity|].
  destruct (is_Exception e); reflexivity.
Qed.

Lemma submit_request_unique (op : api_op) :
  url (request_of op) = [Lit API_URL; Lit "/print"] ->
  exists d, op = OpPrintLabel d.
Proof.
  destruct op; cbn; intros H; try discriminate H. eauto.
Qed.

(** C1: [print_label] issues one request, a POST to [/print] whose JSON body
    is its argument, unchanged; the argument [main] builds has exactly the
    fields [pageConfig], [label] (with [qrData], [title], [subtitle]) and
    [quantity]; and every request [main] ever sends to [/print], under any
    behaviour of the server, is that POST with that body. *)
Theorem structured_job_body :
  (forall label_data w st,
     new_calls st (snd (print_label label_data w st)) =
       [CHttp (mkRequest POST [Lit API_URL; Lit "/print"] (Some label_data) None)]) /\
  structured_job_shape main_label_data /\
  (forall w st r,
     In (CHttp r) (new_calls st (snd (main w st))) ->
     url r = [Lit API_URL; Lit "/print"] ->
     r = mkRequest POST [Lit API_URL; Lit "/print"] (Some main_label_data) None /\
     exists body, json_body r = Some body /\ structured_job_shape body).
Proof.
  assert (Hshape : structured_job_shape main_label_data).
  { unfold structured_job_shape, main_label_data.
    do 6 eexists. split; reflexivity. }
  split; [|split; [exact Hshape|]].
  - intros d w st. apply new_calls_app.
    exact (run_op_calls (OpPrintLabel d) w st eq_refl).
  - intros w st r Hin Hurl.
    destruct (main_emits w st) as [new [Hc Hall]].
    rewrite (new_calls_app _ _ _ Hc) in Hin.
    rewrite Forall_forall in Hall. specialize (Hall _ Hin).
    destruct Hall as [Hs|[op [Hop Hm]]]; [discriminate Hs|].
    inversion Hop; subst r.
    destruct (submit_request_unique op Hurl) as [d ->].
    cbn in Hm. subst d. split; [reflexivity|].
    exists main_label_data. split; [reflexivity | exact Hshape].
Qed.

(** When the server answers [{}] to everything, [main] does submit the job. *)
Lemma structured_job_body_witness :
  let r := mkRequest POST [Lit API_URL; Lit "/print"] (Some main_label_data) None in
  In (CHttp r) (new_calls initial (snd (main (constant_world (PDict [])) initial))) /\
  url r = [Lit API_URL; Lit "/print"] /\
  exists body, json_body r = Some body /\ structured_job_shape body.
Proof.
  intros r.
  assert (Hin : In (CHttp r)
                  (new_calls initial (snd (main (constant_world (PDict [])) initial)))).
  { cbn. right. left. reflexivity. }
  split; [exact Hin|]. split; [reflexivity|].
  exact (proj2 (proj2 (proj2 structured_job_body) (constant_world (PDict [])) initial
                  r Hin eq_refl)).
Defined.

(** ** Exceptions *)

Ltac raises_auto :=
  repeat first
    [ match goal with
      | |- raises _ _ list_printers => apply (raises_run_op _ _ OpListPrinters)
      | |- raises _ _ (connect_printer ?v ?p) => apply (raises_run_op _ _ (OpConnect v p))
      | |- raises _ _ get_printer_status => apply (raises_run_op _ _ OpStatus)
      | |- raises _ _ (print_label ?d) => apply (raises_run_op _ _ (OpPrintLabel d))
      | |- raises _ _ (check_job_status ?i) => apply (raises_run_op _ _ (OpCheckJob i))
      | |- raises _ _ get_queue_stats => apply (raises_run_op _ _ OpStats)
      | |- raises _ _ (list_jobs ?s ?l) => apply (raises_run_op _ _ (OpListJobs s l))
      | |- raises _ _ (time_sleep _) => apply raises_time_sleep
      | |- raises _ _ (print _) => apply raises_print
      | |- raises _ _ (ret _) => apply raises_ret
      | |- raises _ _ (lift _) => apply raises_lift
      | |- raises _ _ (if _ then _ else _) => apply raises_if
      | |- raises _ _ (bind _ _) => apply raises_bind; [|intro]
      end ].

(** Whatever escapes the [try] body was raised by the outside world or is one
    of the body's own lookup errors, which all derive from [Exception]. *)
Lemma main_body_raises (w : env) : raises w (env_or_Exception w) main_body.
Proof.
  unfold main_body. raises_auto;
    intros e He;
    first
      [ left; exact He
      | right;
        first
          [ apply (print_error_Exception _ _ He)
          | eapply cond_has_printer_raises; eassumption
          | eapply expr_first_printer_raises; eassumption
          | eapply py_getitem_raises; eassumption
          | eapply cond_has_job_id_raises; eassumption
          | eapply expr_job_id_raises; eassumption ] ].
Qed.

Lemma constant_world_raises_nothing (v : pyval) (e : exn) :
  ~ raised_by_env (constant_world v) e.
Proof.
  intros [[h [r H]]|[[h [r [resp [H1 H2]]]]|[h [s H]]]]; cbn in *;
    try discriminate.
  unfold answer in H1. inversion H1; subst. discriminate H2.
Qed.

Lemma constant_world_only_Exception (v : pyval) :
  raises_only_Exception (constant_world v).
Proof. intros e He. destruct (constant_world_raises_nothing v e He). Qed.

Lemma connection_handler_run (w : env) (st : state) :
  (print [Lit "Error: Could not connect to API server."] ;;;
   print [Lit "Make sure the Label Printer Server is running on port 3000."]) w st =
    (Ok tt,
     mkState (calls st)
       (out st ++
          [[Lit "Error: Could not connect to API server."];
           [Lit "Make sure the Label Printer Server is running on port 3000."]])).
Proof.
  unfold bind, print. cbn. rewrite <- app_assoc. reflexivity.
Qed.

Lemma error_handler_run (e : exn) (w : env) (st : state) :
  print [Lit "Error: "; StrOfExn e] w st =
    (Ok tt, mkState (calls st) (out st ++ [[Lit "Error: "; StrOfExn e]])).
Proof. reflexivity. Qed.

(** What [main] does with the outcome of its [try] body. *)
Lemma main_of_body (w : env) (st : state) :
  main w st =
    match main_body w st with
    | (Ok x, st1) => (Ok x, st1)
    | (Raise e, st1) =>
        if is_requests_ConnectionError e then
          (Ok tt,
           mkState (calls st1)
             (out st1 ++
                [[Lit "Error: Could not connect to API server."];
                 [Lit "Make sure the Label Printer Server is running on port 3000."]]))
        else if is_Exception e then
          (Ok tt, mkState (calls st1) (out st1 ++ [[Lit "Error: "; StrOfExn e]]))
        else (Raise e, st1)
    end.
Proof.
  unfold main, try_except.
  destruct (main_body w st) as [[x|e] st1]; [reflexivity|].
  destruct (is_requests_ConnectionError e); [apply connection_handler_run|].
  destruct (is_Exception e); [apply error_handler_run | reflexivity].
Qed.

(** C9, as the code has it: [main] catches every exception that derives from
    [Exception].  If the outside world raises only such exceptions, [main]
    returns normally whatever the server does; a [requests] connection error
    is answered with the two-line hint naming port 3000, any other
    [Exception] with one line [Error: ...].  An exception that does not
    derive from [Exception] ([KeyboardInterrupt], [SystemExit]) and is raised
    inside the [try] body leaves [main] as it is, nothing more being printed;
    and whatever leaves [main] is such an exception, raised by the outside
    world. *)
Theorem main_catches_every_Exception :
  (forall w st, raises_only_Exception w -> exists st', main w st = (Ok tt, st')) /\
  (forall w st msg st1,
     main_body w st = (Raise (RequestsConnectionError msg), st1) ->
     main w st =
       (Ok tt, mkState (calls st1)
          (out st1 ++
             [[Lit "Error: Could not connect to API server."];
              [Lit "Make sure the Label Printer Server is running on port 3000."]]))) /\
  (forall w st e st1,
     main_body w st = (Raise e, st1) ->
     is_requests_ConnectionError e = false -> is_Exception e = true ->
     main w st =
       (Ok tt, mkState (calls st1) (out st1 ++ [[Lit "Error: "; StrOfExn e]]))) /\
  (forall w st e st',
     main w st = (Raise e, st') -> is_Exception e = false /\ raised_by_env w e) /\
  (forall w st e st1,
     main_body w st = (Raise e, st1) -> is_Exception e = false ->
     main w st = (Raise e, st1)) /\
  (forall w st st1,
     main_body w st = (Raise KeyboardInterrupt, st1) ->
     main w st = (Raise KeyboardInterrupt, st1)) /\
  (forall w st code st1,
     main_body w st = (Raise (SystemExit code), st1) ->
     main w st = (Raise (SystemExit code), st1)) /\
  (forall w st e,
     http w (calls st) (request_of OpListPrinters) = Raise e ->
     is_Exception e = false ->
     fst (main w st) = Raise e).
Proof.
  assert (Hleave : forall w st e st1,
            main_body w st = (Raise e, st1) -> is_Exception e = false ->
            main w st = (Raise e, st1)).
  { intros w st e st1 Hb He. rewrite main_of_body, Hb.
    destruct e; try discriminate He; reflexivity. }
  split; [|split; [|split; [|split; [|split; [|split; [|split]]]]]].
  - intros w st Hw. rewrite main_of_body.
    destruct (main_body w st) as [[[]|e] st1] eqn:Hb; [eauto|].
    assert (He : is_Exception e = true).
    { destruct (main_body_raises w st e st1 Hb) as [H|H]; auto. }
    destruct (is_requests_ConnectionError e); [eauto|].
    rewrite He. eauto.
  - intros w st msg st1 Hb. rewrite main_of_body, Hb. reflexivity.
  - intros w st e st1 Hb H1 H2. rewrite main_of_body, Hb, H1, H2. reflexivity.
  - intros w st e st'. rewrite main_of_body.
    destruct (main_body w st) as [[[]|e0] st1] eqn:Hb; [discriminate|].
    destruct (is_requests_ConnectionError e0); [discriminate|].
    destruct (is_Exception e0) eqn:He; [discriminate|].
    intros H. inversion H; subst.
    split; [exact He|].
    destruct (main_body_raises w st e st' Hb) as [H0|H0]; [exact H0|congruence].
  - exact Hleave.
  - intros w st st1 Hb. apply Hleave; [exact Hb | reflexivity].
  - intros w st code st1 Hb. apply Hleave; [exact Hb | reflexivity].
  - intros w st e Hh He.
    assert (Hb : main_body w st =
              (Raise e,
               mkState (calls st ++ [CHttp (request_of OpListPrinters)])
                 ((out st ++ [[Lit ("=== Label Printer API Example ===" ++ nl)%string]])
                    ++ [banner_of OpListPrinters]))).
    { unfold main_body. unfold bind at 1. unfold print at 1.
      cbn [print_error first_error format_error encode_error].
      change list_printers with (run_op OpListPrinters).
      unfold bind at 1. rewrite run_op_round_trip. unfold round_trip.
      cbn [banner_of print_error first_error format_error encode_error calls out].
      rewrite Hh. reflexivity. }
    rewrite (Hleave _ _ _ _ Hb He). reflexivity.
Qed.

Lemma main_catches_every_Exception_witness :
  raises_only_Exception (constant_world (PList [])) /\
  exists st', main (constant_world (PList [])) initial = (Ok tt, st').
Proof.
  split; [apply constant_world_only_Exception|].
  apply (proj1 main_catches_every_Exception (constant_world (PList [])) initial).
  apply constant_world_only_Exception.
Defined.

(** With nothing listening on port 3000, [main] tries the first request,
    prints the hint and returns. *)
Lemma main_server_down :
  main server_down initial =
    (Ok tt,
     mkState [CHttp (request_of OpListPrinters)]
       [[Lit ("=== Label Printer API Example ===" ++ nl)%string];
        [Lit "Listing available printers..."];
        [Lit "Error: Could not connect to API server."];
        [Lit "Make sure the Label Printer Server is running on port 3000."]]).
Proof. reflexivity. Qed.

(** C9, as stated, fails: [KeyboardInterrupt] does not derive from
    [Exception], so when it is raised while a request is in flight, or during
    [time.sleep(2)], it leaves [main]. *)
Lemma main_propagates_KeyboardInterrupt :
  fst (main interrupted_world initial) = Raise KeyboardInterrupt /\
  fst (main interrupted_sleep_world initial) = Raise KeyboardInterrupt /\
  ~ (exists st', main interrupted_world initial = (Ok tt, st')).
Proof.
  split; [reflexivity|]. split; [reflexivity|].
  intros [st' H]. discriminate H.
Qed.

(** ** The guards of [main] *)

Lemma bind_Ok_inv {A B} (m : M A) (k : A -> M B) (w : env) (st st' : state) (b : B) :
  bind m k w st = (Ok b, st') ->
  exists a st1, m w st = (Ok a, st1) /\ k a w st1 = (Ok b, st').
Proof.
  unfold bind. destruct (m w st) as [[a|e] st1]; [eauto | discriminate].
Qed.

Lemma main_body_two_parts (w : env) (st : state) :
  main_body w st = (main_before_submit ;;; main_from_submit) w st.
Proof.
  rewrite main_body_split. unfold main_before_submit, bind.
  destruct (print _ w st) as [[[]|e0] st0]; [|reflexivity].
  destruct (list_printers w st0) as [[printers|e1] st1]; [|reflexivity].
  destruct (print separator w st1) as [[[]|e2] st2]; [|reflexivity].
  destruct (lift (cond_has_printer printers) w st2) as [[b|e3] st3]; reflexivity.
Qed.

Lemma main_before_submit_emits : emits main_call main_before_submit.
Proof.
  unfold main_before_submit. emits_auto.
  - right. exists OpListPrinters. split; [reflexivity | exact I].
  - apply main_connect_block_emits.
Qed.

(** Once reached, the submit step sends its request first, and only the
    later steps' calls follow. *)
Lemma main_from_submit_calls (w : env) (st : state) :
  exists rest,
    calls (snd (main_from_submit w st)) =
      calls st ++ CHttp (request_of (OpPrintLabel main_label_data)) :: rest /\
    Forall late_call rest.
Proof.
  unfold main_from_submit, bind.
  pose proof (run_op_calls (OpPrintLabel main_label_data) w st eq_refl) as Hc.
  cbn [run_op] in Hc.
  destruct (print_label main_label_data w st) as [[v|e] st1]; cbn in Hc.
  - destruct (main_after_submit_emits v w st1) as [new [E F]].
    exists new. rewrite E, Hc, <- app_assoc. auto.
  - exists []. cbn. auto.
Qed.

(** When the listing names no printer, steps 1 and 2 make one call. *)
Lemma main_before_submit_no_printer (w : env) (st : state)
    (resp : response) (printers : pyval) :
  http w (calls st) (request_of OpListPrinters) = Ok resp ->
  json resp = Ok printers ->
  cond_has_printer printers = Ok false ->
  exists st1,
    main_before_submit w st = (Ok tt, st1) /\
    calls st1 = calls st ++ [CHttp (request_of OpListPrinters)].
Proof.
  intros Hh Hj Hc. unfold main_before_submit.
  change list_printers with (run_op OpListPrinters).
  rewrite bind_print by reflexivity.
  rewrite bind_run_op by reflexivity. cbn [calls out]. rewrite Hh, Hj.
  rewrite bind_print by reflexivity. rewrite bind_lift, Hc.
  unfold main_connect_block, ret. eexists. split; reflexivity.
Qed.


Lemma late_call_not_connect (c : call) :
  late_call c ->
  (forall v p, c <> CHttp (request_of (OpConnect v p))) /\
  c <> CHttp (request_of OpStatus).
Proof.
  intros [->|[op [-> Hop]]]; [split; intros; discriminate|].
  destruct op; cbn in Hop; try contradiction; split; intros; discriminate.
Qed.

Lemma cond_has_printer_true_inv (printers : pyval) :
  cond_has_printer printers = Ok true ->
  exists items p,
    printers = PDict items /\ lookup "printers" items = Some p /\
    truthy p = true /\ expr_first_printer printers = py_getitem0 p /\
    exists n, py_len p = Ok n /\ 0 < n.
Proof.
  unfold cond_has_printer, expr_first_printer.
  destruct printers as [| | | | | |items]; cbn; try discriminate.
  destruct (lookup "printers" items) as [p|] eqn:Hl; cbn; [|discriminate].
  destruct (truthy p) eqn:Ht; [|discriminate].
  destruct (py_len p) as [n|e] eqn:Hn; [|discriminate].
  intros H. assert (Hlt : (0 <? n) = true) by congruence.
  apply Z.ltb_lt in Hlt.
  exists items, p. repeat split; auto. exists n. auto.
Qed.

(** After the guard, [printers['printers'][0]] succeeds on a list and on a
    string, and raises [KeyError] on an object; it never raises [IndexError]. *)
Lemma first_printer_after_guard (printers : pyval) :
  cond_has_printer printers = Ok true ->
  exists items p,
    printers = PDict items /\ lookup "printers" items = Some p /\
    match p with
    | PList l => exists x rest, l = x :: rest /\ expr_first_printer printers = Ok x
    | PStr s => exists x, expr_first_printer printers = Ok x
    | PDict _ => expr_first_printer printers = Raise (KeyError (PInt 0))
    | _ => False
    end.
Proof.
  intros H. destruct (cond_has_printer_true_inv printers H)
    as [items [p [Hp [Hl [Ht [He [n [Hn Hpos]]]]]]]].
  exists items, p. split; [exact Hp|]. split; [exact Hl|].
  rewrite He. destruct p as [| | | |s|l|its]; cbn in *; try discriminate.
  - destruct s; [discriminate|]. eauto.
  - destruct l as [|x rest]; [discriminate|]. eauto.
  - reflexivity.
Qed.

(** After the guard, [print_job['job']['id']] succeeds and is truthy. *)
Lemma job_id_after_guard (print_job : pyval) :
  cond_has_job_id print_job = Ok true ->
  exists i, expr_job_id print_job = Ok i /\ truthy i = true.
Proof.
  unfold cond_has_job_id, expr_job_id.
  destruct print_job as [| | | | | |items]; cbn; try discriminate.
  destruct (lookup "job" items) as [j|] eqn:Hl; cbn; [|discriminate].
  destruct (truthy j); [|discriminate].
  destruct j as [| | | | | |jitems]; cbn; try discriminate.
  destruct (lookup "id" jitems) as [i|] eqn:Hi; cbn.
  - intros H. inversion H. eauto.
  - discriminate.
Qed.

(** * The job queue: order of service and job life cycle *)

Module JobQueueFacts.
Import JobQueue.

Lemma is_queued_true (j : job) : is_queued j = true <-> job_status j = Queued.
Proof. unfold is_queued. destruct (job_status j); intuition congruence. Qed.

Lemma is_queued_false (j : job) : is_queued j = false <-> job_status j <> Queued.
Proof. unfold is_queued. destruct (job_status j); intuition congruence. Qed.

(** ** [dequeueNext] picks the first queued job *)

Lemma take_first_queued_none (js : list job) :
  take_first_queued js = None <-> forall j, In j js -> job_status j <> Queued.
Proof.
  induction js as [|a rest IH]; cbn.
  - split; [intros _ j [] | reflexivity].
  - destruct (is_queued a) eqn:Ha.
    + split; [discriminate|]. intros H.
      apply is_queued_true in Ha. destruct (H a (or_introl eq_refl) Ha).
    + apply is_queued_false in Ha.
      destruct (take_first_queued rest) as [[x rest']|].
      * split; [discriminate|]. intros H.
        destruct IH as [_ IH].
        assert (Hx : Some (x, rest') = None).
        { apply IH. intros j Hj. apply H. right. exact Hj. }
        discriminate Hx.
      * split; [|reflexivity]. intros _ j [<-|Hj]; [exact Ha|].
        destruct IH as [IH _]. apply IH; auto.
Qed.

Lemma take_first_queued_some (js js' : list job) (j : job) :
  take_first_queued js = Some (j, js') ->
  exists before j0 after,
    js = before ++ j0 :: after /\
    (forall x, In x before -> job_status x <> Queued) /\
    job_status j0 = Queued /\
    j = with_status j0 Processing (finishedAt j0) (error j0) /\
    js' = before ++ j :: after.
Proof.
  revert js'. induction js as [|a rest IH]; cbn; intros js'; [discriminate|].
  destruct (is_queued a) eqn:Ha.
  - intros H. inversion H; subst. apply is_queued_true in Ha.
    exists [], a, rest. cbn. repeat split; auto; intros x [].
  - apply is_queued_false in Ha.
    destruct (take_first_queued rest) as [[x rest']|]; [|discriminate].
    intros H. inversion H; subst.
    destruct (IH rest' eq_refl) as [before [j0 [after [E [Hb [Hq [Hj Hr]]]]]]].
    exists (a :: before), j0, after. cbn. subst rest rest'.
    repeat split; auto. intros y [<-|Hy]; auto.
Qed.

Lemma take_first_queued_ids (js js' : list job) (j : job) :
  take_first_queued js = Some (j, js') -> map id js' = map id js.
Proof.
  intros H. destruct (take_first_queued_some _ _ _ H)
    as [before [j0 [after [-> [_ [_ [-> ->]]]]]]].
  rewrite !map_app. reflexivity.
Qed.

Lemma filter_none_queued (js : list job) :
  (forall x, In x js -> job_status x <> Queued) -> filter is_queued js = [].
Proof.
  induction js as [|a rest IH]; cbn; intros H; [reflexivity|].
  assert (Ha : is_queued a = false) by (apply is_queued_false; auto).
  rewrite Ha. auto.
Qed.

Lemma take_first_queued_filter (js js' : list job) (j : job) :
  take_first_queued js = Some (j, js') ->
  map id (filter is_queued js) = id j :: map id (filter is_queued js').
Proof.
  intros H. destruct (take_first_queued_some _ _ _ H)
    as [before [j0 [after [-> [Hb [Hq [-> ->]]]]]]].
  rewrite !filter_app, (filter_none_queued before Hb). cbn.
  apply is_queued_true in Hq. rewrite Hq. reflexivity.
Qed.

Lemma drain_queued (fuel : nat) (q : queue) :
  (List.length (filter is_queued (jobs q)) <= fuel)%nat ->
  map id (fst (drain fuel q)) = queued_ids q /\
  dequeueNext (snd (drain fuel q)) = None.
Proof.
  revert q. induction fuel as [|fuel IH]; intros q Hlen.
  - cbn. unfold queued_ids, dequeueNext.
    destruct (filter is_queued (jobs q)) eqn:Hf; [|cbn in Hlen; lia].
    split; [reflexivity|].
    assert (Hn : take_first_queued (jobs q) = None).
    { apply take_first_queued_none. intros j Hj Hq.
      assert (Hin : In j (filter is_queued (jobs q))).
      { apply filter_In. split; [exact Hj | apply is_queued_true; exact Hq]. }
      rewrite Hf in Hin. exact Hin. }
    rewrite Hn. reflexivity.
  - cbn [drain]. destruct (dequeueNext q) as [[j q']|] eqn:Hd.
    + unfold dequeueNext in Hd.
      destruct (take_first_queued (jobs q)) as [[j1 js]|] eqn:Ht; [|discriminate].
      inversion Hd; subst j1 q'. clear Hd.
      pose proof (take_first_queued_filter _ _ _ Ht) as Hf.
      assert (Hlen' : (List.length (filter is_queued js) <= fuel)%nat).
      { apply (f_equal (@List.length nat)) in Hf. cbn in Hf.
        rewrite !length_map in Hf. lia. }
      destruct (IH (mkQueue js (next_id q)) Hlen') as [H1 H2].
      destruct (drain fuel (mkQueue js (next_id q))) as [ds q''].
      cbn in *. unfold queued_ids in *. cbn in H1.
      rewrite Hf, H1. auto.
    + cbn. split; [|exact Hd].
      unfold queued_ids. unfold dequeueNext in Hd.
      destruct (take_first_queued (jobs q)) as [[j1 js]|] eqn:Ht; [discriminate|].
      rewrite filter_none_queued; [reflexivity|].
      apply take_first_queued_none. exact Ht.
Qed.

(** ** [enqueue] appends at the back *)

Lemma enqueue_inr (now : Z) (p : payload) (q q' : queue) (i : nat) :
  enqueue now p q = inr (i, q') ->
  valid p = true /\ i = next_id q /\ next_id q' = S (next_id q) /\
  exists j, jobs q' = jobs q ++ [j] /\ id j = i /\ job_status j = Queued /\
            job_payload j = p /\ createdAt j = now.
Proof.
  unfold enqueue. destruct (valid p); [|discriminate].
  intros H. inversion H; subst. cbn. repeat split; auto.
  eexists. repeat split; reflexivity.
Qed.

Lemma enqueue_all_appends (ps : list (Z * payload)) (q : queue) :
  exists new,
    jobs (snd (enqueue_all ps q)) = jobs q ++ new /\
    map id new = fst (enqueue_all ps q) /\
    (forall j, In j new -> job_status j = Queued).
Proof.
  revert q. induction ps as [|[now p] rest IH]; intros q; cbn.
  - exists []. rewrite app_nil_r. repeat split; auto. intros j [].
  - destruct (enqueue now p q) as [f|[i q']] eqn:He.
    + apply IH.
    + destruct (enqueue_inr _ _ _ _ _ He) as [_ [_ [_ [j [Hj [Hi [Hs _]]]]]]].
      destruct (IH q') as [new [E [M F]]].
      destruct (enqueue_all rest q') as [ids q'']. cbn in *.
      exists (j :: new). rewrite E, Hj, <- app_assoc. cbn.
      repeat split; [congruence|].
      intros x [<-|Hx]; auto.
Qed.

Lemma filter_all_queued (js : list job) :
  (forall j, In j js -> job_status j = Queued) -> filter is_queued js = js.
Proof.
  induction js as [|a rest IH]; cbn; intros H; [reflexivity|].
  assert (Ha : is_queued a = true) by (apply is_queued_true; auto).
  rewrite Ha. f_equal. auto.
Qed.

Lemma enqueue_all_queued_ids (ps : list (Z * payload)) (q : queue) :
  queued_ids (snd (enqueue_all ps q)) = queued_ids q ++ fst (enqueue_all ps q).
Proof.
  destruct (enqueue_all_appends ps q) as [new [E [M F]]].
  unfold queued_ids. rewrite E, filter_app, map_app, (filter_all_queued new F), M.
  reflexivity.
Qed.

(** ** Well-formed queues *)

Lemma ascending_below (b : nat) (ids : list nat) :
  ascending b ids -> Forall (fun x => (x < b)%nat) ids.
Proof.
  induction ids as [|i rest IH]; cbn; [constructor|].
  intros [H1 [H2 H3]]. constructor; auto.
Qed.

Lemma ascending_snoc (b : nat) (ids : list nat) :
  ascending b ids -> ascending (S b) (ids ++ [b]).
Proof.
  induction ids as [|i rest IH]; cbn.
  - intros _. repeat split; auto.
  - intros [H1 [H2 H3]]. repeat split; auto.
    apply Forall_app. split; [exact H2|]. constructor; [exact H1 | constructor].
Qed.

Lemma Forall_map_filter (P : nat -> Prop) (f : job -> bool) (js : list job) :
  Forall P (map id js) -> Forall P (map id (filter f js)).
Proof.
  induction js as [|a rest IH]; cbn; [auto|].
  intros H. inversion H; subst. destruct (f a); cbn; auto.
Qed.

Lemma ascending_filter (b : nat) (f : job -> bool) (js : list job) :
  ascending b (map id js) -> ascending b (map id (filter f js)).
Proof.
  induction js as [|a rest IH]; cbn; [auto|].
  intros [H1 [H2 H3]]. destruct (f a); cbn; auto.
  repeat split; auto. apply Forall_map_filter. exact H2.
Qed.

Lemma finish_ids (now : Z) (i : nat) (s : status) (err : option string)
    (js js' : list job) :
  finish now i s err js = Some js' -> map id js' = map id js.
Proof.
  revert js'. induction js as [|a rest IH]; cbn; intros js'; [discriminate|].
  destruct (Nat.eqb (id a) i).
  - destruct (job_status a); try discriminate.
    intros H. inversion H. reflexivity.
  - destruct (finish now i s err rest) as [rest'|]; [|discriminate].
    intros H. inversion H. cbn. f_equal. auto.
Qed.

Lemma apply_op_next_id (o : op) (q : queue) :
  (next_id q <= next_id (apply_op o q))%nat.
Proof.
  destruct o; cbn.
  - unfold enqueue. destruct (valid p); cbn; lia.
  - unfold dequeueNext. destruct (take_first_queued (jobs q)) as [[j js]|]; cbn; lia.
  - unfold markCompleted. destruct (finish _ _ _ _ _); cbn; lia.
  - unfold markFailed. destruct (finish _ _ _ _ _); cbn; lia.
  - lia.
Qed.

Lemma apply_op_well_formed (o : op) (q : queue) :
  well_formed q -> well_formed (apply_op o q).
Proof.
  unfold well_formed. intros H. destruct o; cbn.
  - unfold enqueue. destruct (valid p); cbn; [|exact H].
    rewrite map_app. cbn. apply ascending_snoc. exact H.
  - unfold dequeueNext.
    destruct (take_first_queued (jobs q)) as [[j js]|] eqn:Ht; cbn; [|exact H].
    rewrite (take_first_queued_ids _ _ _ Ht). exact H.
  - unfold markCompleted.
    destruct (finish now i Completed None (jobs q)) as [js|] eqn:Hf; cbn; [|exact H].
    rewrite (finish_ids _ _ _ _ _ _ Hf). exact H.
  - unfold markFailed.
    destruct (finish now i Failed (Some err) (jobs q)) as [js|] eqn:Hf; cbn; [|exact H].
    rewrite (finish_ids _ _ _ _ _ _ Hf). exact H.
  - apply ascending_filter. exact H.
Qed.

Lemma reachable_well_formed (q : queue) : reachable q -> well_formed q.
Proof.
  induction 1 as [|o q Hq IH]; [exact I|].
  apply apply_op_well_formed. exact IH.
Qed.

Lemma run_reachable (os : list op) (q : queue) :
  reachable q -> reachable (run os q).
Proof.
  revert q. induction os as [|o rest IH]; intros q Hq; cbn; [exact Hq|].
  apply IH. constructor. exact Hq.
Qed.

Lemma enqueue_all_length (ps : list (Z * payload)) (q : queue) :
  (List.length (fst (enqueue_all ps q)) <= List.length ps)%nat.
Proof.
  revert q. induction ps as [|[now p] rest IH]; intros q; cbn; [lia|].
  destruct (enqueue now p q) as [f|[i q']].
  - specialize (IH q). lia.
  - specialize (IH q'). destruct (enqueue_all rest q'). cbn in *. lia.
Qed.

Lemma ascending_after (b : nat) (before after : list job) (j0 : job) :
  ascending b (map id (before ++ j0 :: after)) ->
  Forall (fun x => (id j0 < x)%nat) (map id after).
Proof.
  induction before as [|a rest IH]; cbn.
  - intros [_ [H _]]. exact H.
  - intros [_ [_ H]]. auto.
Qed.

(** C4: service is first in, first out.  [dequeueNext] returns none exactly
    when no job is [Queued]; otherwise it returns the first [Queued] job of
    the sequence, now [Processing], and changes nothing else; after any
    sequence of [enqueue] calls, repeated [dequeueNext] calls hand the jobs
    out in the order their ids were assigned; and in any reachable queue the
    job returned has the smallest id among the queued ones. *)
Theorem dequeueNext_fifo :
  (forall q,
     dequeueNext q = None <-> (forall j, In j (jobs q) -> job_status j <> Queued)) /\
  (forall q j q',
     dequeueNext q = Some (j, q') ->
     exists before j0 after,
       jobs q = before ++ j0 :: after /\
       (forall x, In x before -> job_status x <> Queued) /\
       job_status j0 = Queued /\
       id j = id j0 /\ job_payload j = job_payload j0 /\
       job_status j = Processing /\
       jobs q' = before ++ j :: after) /\
  (forall ps,
     let q := snd (enqueue_all ps empty) in
     map id (fst (drain (List.length ps) q)) = fst (enqueue_all ps empty) /\
     dequeueNext (snd (drain (List.length ps) q)) = None) /\
  (forall ps q0,
     let q := snd (enqueue_all ps q0) in
     map id (fst (drain (List.length (jobs q)) q)) =
       queued_ids q0 ++ fst (enqueue_all ps q0) /\
     dequeueNext (snd (drain (List.length (jobs q)) q)) = None) /\
  (forall q j q',
     reachable q -> dequeueNext q = Some (j, q') ->
     forall x, In x (jobs q) -> job_status x = Queued -> (id j <= id x)%nat).
Proof.
  split; [|split; [|split; [|split]]].
  - intros q. unfold dequeueNext.
    rewrite <- take_first_queued_none.
    destruct (take_first_queued (jobs q)) as [[j js]|]; split; auto; discriminate.
  - intros q j q' H. unfold dequeueNext in H.
    destruct (take_first_queued (jobs q)) as [[j1 js]|] eqn:Ht; [|discriminate].
    inversion H; subst j1 q'. clear H.
    destruct (take_first_queued_some _ _ _ Ht)
      as [before [j0 [after [E [Hb [Hq [Hj Hr]]]]]]].
    exists before, j0, after. subst j. cbn. repeat split; auto.
  - intros ps q.
    assert (Hlen : (List.length (filter is_queued (jobs q)) <= List.length ps)%nat).
    { pose proof (enqueue_all_queued_ids ps empty) as Hq.
      unfold queued_ids in Hq. cbn in Hq. fold q in Hq.
      apply (f_equal (@List.length nat)) in Hq. rewrite length_map in Hq.
      rewrite Hq. apply enqueue_all_length. }
    destruct (drain_queued _ q Hlen) as [H1 H2].
    split; [|exact H2]. rewrite H1.
    subst q. rewrite enqueue_all_queued_ids. reflexivity.
  - intros ps q0 q.
    assert (Hlen : (List.length (filter is_queued (jobs q)) <= List.length (jobs q))%nat)
      by apply filter_length_le.
    destruct (drain_queued _ q Hlen) as [H1 H2].
    split; [|exact H2]. rewrite H1.
    subst q. apply enqueue_all_queued_ids.
  - intros q j q' Hr H x Hx Hs.
    apply reachable_well_formed in Hr. unfold well_formed in Hr.
    unfold dequeueNext in H.
    destruct (take_first_queued (jobs q)) as [[j1 js]|] eqn:Ht; [|discriminate].
    inversion H; subst j1 q'. clear H.
    destruct (take_first_queued_some _ _ _ Ht)
      as [before [j0 [after [E [Hb [Hq [Hj Hr']]]]]]].
    subst j. cbn. rewrite E in Hx, Hr.
    apply in_app_or in Hx. destruct Hx as [Hx|[<-|Hx]].
    + destruct (Hb x Hx Hs).
    + lia.
    + pose proof (ascending_after _ _ _ _ Hr) as Ha.
      rewrite Forall_forall in Ha.
      assert (id j0 < id x)%nat by (apply Ha; apply in_map; exact Hx).
      lia.
Qed.

(** Three submissions, the second rejected: the two accepted jobs come out
    in the order they went in. *)
Lemma dequeueNext_fifo_witness :
  map id (fst (drain 3
    (snd (enqueue_all
            [(10, Raw "CLS"); (11, Raw ""); (12, Structured (mkLabel "A" "" "" "default" 1))]
            empty)))) = [0; 1]%nat /\
  exists before j0 after,
    jobs (snd (enqueue_all [(10, Raw "CLS")] empty)) = before ++ j0 :: after /\
    job_status j0 = Queued.
Proof.
  split.
  - exact (proj1 (proj1 (proj2 (proj2 dequeueNext_fifo))
             [(10, Raw "CLS"); (11, Raw "");
              (12, Structured (mkLabel "A" "" "" "default" 1))])).
  - destruct (proj1 (proj2 dequeueNext_fifo)
                (snd (enqueue_all [(10, Raw "CLS")] empty))
                (mkJob 0 RawCommand (Raw "CLS") Processing 10 None None None)
                (mkQueue [mkJob 0 RawCommand (Raw "CLS") Processing 10 None None None] 1)
                eq_refl)
      as [before [j0 [after [E [_ [Hq _]]]]]].
    exists before, j0, after. split; [exact E | exact Hq].
Defined.

(** ** The life cycle of a job *)

Lemma status_in_app (i : nat) (l1 l2 : list job) :
  status_in i (l1 ++ l2) =
    match status_in i l1 with Some s => Some s | None => status_in i l2 end.
Proof.
  induction l1 as [|a rest IH]; cbn; [reflexivity|].
  destruct (Nat.eqb (id a) i); auto.
Qed.

Lemma status_in_absent (i : nat) (js : list job) :
  Forall (fun x => x <> i) (map id js) -> status_in i js = None.
Proof.
  induction js as [|a rest IH]; cbn; [reflexivity|].
  intros H. inversion H; subst.
  destruct (Nat.eqb_spec (id a) i); [contradiction | auto].
Qed.

Lemma status_in_present (i : nat) (js : list job) (s : status) :
  status_in i js = Some s -> In i (map id js).
Proof.
  induction js as [|a rest IH]; cbn; [discriminate|].
  destruct (Nat.eqb_spec (id a) i); auto.
Qed.

Lemma status_of_below (i : nat) (q : queue) (s : status) :
  well_formed q -> status_of i q = Some s -> (i < next_id q)%nat.
Proof.
  intros Hw Hs. apply status_in_present in Hs.
  apply ascending_below in Hw. rewrite Forall_forall in Hw. auto.
Qed.

Lemma take_first_queued_status (js js' : list job) (j : job) (i : nat) :
  take_first_queued js = Some (j, js') ->
  status_in i js' = status_in i js \/
  (status_in i js = Some Queued /\ status_in i js' = Some Processing).
Proof.
  revert js'. induction js as [|a rest IH]; cbn; intros js'; [discriminate|].
  destruct (is_queued a) eqn:Ha.
  - intros H. inversion H; subst. cbn.
    destruct (Nat.eqb (id a) i); [|left; reflexivity].
    right. apply is_queued_true in Ha. rewrite Ha. auto.
  - destruct (take_first_queued rest) as [[x rest']|]; [|discriminate].
    intros H. inversion H; subst. cbn.
    destruct (Nat.eqb (id a) i); [left; reflexivity|].
    apply IH. reflexivity.
Qed.

Lemma finish_status (now : Z) (i0 : nat) (s : status) (err : option string)
    (js js' : list job) (i : nat) :
  finish now i0 s err js = Some js' ->
  status_in i js' = status_in i js \/
  (status_in i js = Some Processing /\ status_in i js' = Some s).
Proof.
  revert js'. induction js as [|a rest IH]; cbn; intros js'; [discriminate|].
  destruct (Nat.eqb (id a) i0) eqn:E0.
  - destruct (job_status a) eqn:Hs; try discriminate.
    intros H. inversion H; subst. cbn.
    destruct (Nat.eqb (id a) i); [|left; reflexivity].
    right. auto.
  - destruct (finish now i0 s err rest) as [rest'|]; [|discriminate].
    intros H. inversion H; subst. cbn.
    destruct (Nat.eqb (id a) i); [left; reflexivity|].
    apply IH. reflexivity.
Qed.

Lemma filter_status (b : nat) (f : job -> bool) (js : list job) (i : nat) :
  ascending b (map id js) ->
  status_in i (filter f js) = status_in i js \/ status_in i (filter f js) = None.
Proof.
  induction js as [|a rest IH]; cbn; [auto|].
  intros [H1 [H2 H3]]. destruct (f a); cbn.
  - destruct (Nat.eqb (id a) i); auto.
  - destruct (Nat.eqb_spec (id a) i) as [E|E]; [|auto].
    right. apply status_in_absent. apply Forall_map_filter.
    eapply Forall_impl; [|exact H2]. cbn. intros x Hx. lia.
Qed.

(** One operation moves the status of a job along at most one transition,
    or removes the job. *)
Lemma apply_op_status (o : op) (q : queue) (i : nat) (s : status) :
  well_formed q -> status_of i q = Some s ->
  status_of i (apply_op o q) = None \/
  status_of i (apply_op o q) = Some s \/
  exists s', status_of i (apply_op o q) = Some s' /\ transition s s'.
Proof.
  unfold status_of. intros Hw Hs. destruct o; cbn.
  - unfold enqueue. destruct (valid p); cbn; [|auto].
    rewrite status_in_app, Hs. auto.
  - unfold dequeueNext.
    destruct (take_first_queued (jobs q)) as [[j js]|] eqn:Ht; cbn; [|auto].
    destruct (take_first_queued_status _ _ _ i Ht) as [H|[H1 H2]].
    + rewrite H. auto.
    + right. right. exists Processing. split; [exact H2|].
      assert (s = Queued) by congruence. subst s. constructor.
  - unfold markCompleted.
    destruct (finish now i0 Completed None (jobs q)) as [js|] eqn:Hf; cbn; [|auto].
    destruct (finish_status _ _ _ _ _ _ i Hf) as [H|[H1 H2]].
    + rewrite H. auto.
    + right. right. exists Completed. split; [exact H2|].
      assert (s = Processing) by congruence. subst s. constructor.
  - unfold markFailed.
    destruct (finish now i0 Failed (Some err) (jobs q)) as [js|] eqn:Hf; cbn; [|auto].
    destruct (finish_status _ _ _ _ _ _ i Hf) as [H|[H1 H2]].
    + rewrite H. auto.
    + right. right. exists Failed. split; [exact H2|].
      assert (s = Processing) by congruence. subst s. constructor.
  - destruct (filter_status _ (fun j => negb (is_terminal (job_status j)))
                (jobs q) i Hw) as [H|H].
    + rewrite H. auto.
    + auto.
Qed.

(** A job that appears was just created by [enqueue], in [Queued]. *)
Lemma apply_op_created (o : op) (q : queue) (i : nat) (s' : status) :
  well_formed q -> status_of i q = None ->
  status_of i (apply_op o q) = Some s' ->
  s' = Queued /\ i = next_id q /\ exists now p, o = Enqueue now p.
Proof.
  unfold status_of. intros Hw Hs. destruct o; cbn.
  - unfold enqueue. destruct (valid p); cbn; [|congruence].
    rewrite status_in_app, Hs. cbn.
    destruct (Nat.eqb_spec (next_id q) i); [|discriminate].
    intros H. inversion H. eauto.
  - unfold dequeueNext.
    destruct (take_first_queued (jobs q)) as [[j js]|] eqn:Ht; cbn; [|congruence].
    destruct (take_first_queued_status _ _ _ i Ht) as [H|[H1 H2]]; congruence.
  - unfold markCompleted.
    destruct (finish now i0 Completed None (jobs q)) as [js|] eqn:Hf; cbn; [|congruence].
    destruct (finish_status _ _ _ _ _ _ i Hf) as [H|[H1 H2]]; congruence.
  - unfold markFailed.
    destruct (finish now i0 Failed (Some err) (jobs q)) as [js|] eqn:Hf; cbn; [|congruence].
    destruct (finish_status _ _ _ _ _ _ i Hf) as [H|[H1 H2]]; congruence.
  - destruct (filter_status _ (fun j => negb (is_terminal (job_status j)))
                (jobs q) i Hw) as [H|H]; congruence.
Qed.

(** Ids are never reused: a job that is gone stays gone. *)
Lemma run_gone (os : list op) (q : queue) (i : nat) :
  well_formed q -> status_of i q = None -> (i < next_id q)%nat ->
  status_of i (run os q) = None.
Proof.
  revert q. induction os as [|o rest IH]; intros q Hw Hs Hlt; cbn; [exact Hs|].
  apply IH.
  - apply apply_op_well_formed. exact Hw.
  - destruct (status_of i (apply_op o q)) as [s'|] eqn:H; [|reflexivity].
    destruct (apply_op_created o q i s' Hw Hs H) as [_ [E _]]. lia.
  - pose proof (apply_op_next_id o q). lia.
Qed.

Lemma run_status (os : list op) (q : queue) (i : nat) (s s' : status) :
  well_formed q -> status_of i q = Some s ->
  status_of i (run os q) = Some s' -> transitions s s'.
Proof.
  revert q s. induction os as [|o rest IH]; intros q s Hw Hs; cbn.
  - intros H. assert (s = s') by congruence. subst. constructor.
  - intros H.
    pose proof (apply_op_well_formed o q Hw) as Hw'.
    destruct (apply_op_status o q i s Hw Hs) as [Hn|[Hsame|[s1 [H1 Ht]]]].
    + assert (Hlt : (i < next_id (apply_op o q))%nat).
      { pose proof (status_of_below i q s Hw Hs).
        pose proof (apply_op_next_id o q). lia. }
      fold (run rest (apply_op o q)) in H.
      rewrite (run_gone rest _ i Hw' Hn Hlt) in H. discriminate H.
    + eapply IH; eauto.
    + econstructor; [exact Ht|]. eapply IH; eauto.
Qed.

Lemma transitions_from_terminal (s s' : status) :
  transitions s s' -> is_terminal s = true -> s' = s.
Proof.
  intros H Ht. destruct H as [|s1 s2 s3 H12 H23]; [reflexivity|].
  destruct H12; discriminate Ht.
Qed.

Lemma transitions_to_Queued (s : status) : transitions s Queued -> s = Queued.
Proof.
  intros H. remember Queued as t eqn:Et.
  induction H as [|s1 s2 s3 H12 H23 IH]; [reflexivity|].
  specialize (IH Et). subst. inversion H12.
Qed.

Lemma enqueue_creates_Queued (now : Z) (p : payload) (q q' : queue) (i : nat) :
  well_formed q -> enqueue now p q = inr (i, q') ->
  status_of i q = None /\ status_of i q' = Some Queued.
Proof.
  intros Hw He.
  destruct (enqueue_inr _ _ _ _ _ He) as [_ [Hi [_ [j [Hj [Hid [Hs _]]]]]]].
  assert (Hnone : status_of i q = None).
  { unfold status_of. apply status_in_absent.
    apply ascending_below in Hw.
    eapply Forall_impl; [|exact Hw]. cbn. intros x Hx. lia. }
  split; [exact Hnone|].
  unfold status_of in *. rewrite Hj, status_in_app, Hnone. cbn.
  rewrite Hid, Nat.eqb_refl, Hs. reflexivity.
Qed.

(** C5: in every reachable queue, a job is created by [enqueue] in
    [Queued], under an id no job had before; one operation leaves its status
    as it is or moves it along one of [Queued -> Processing],
    [Processing -> Completed], [Processing -> Failed]; over any sequence of
    operations its status moves along a chain of these transitions, so
    [Completed] and [Failed] are final and no job returns to [Queued]. *)
Theorem job_status_life_cycle :
  (forall q now p i q',
     reachable q -> enqueue now p q = inr (i, q') ->
     status_of i q = None /\ status_of i q' = Some Queued) /\
  (forall q o i s',
     reachable q -> status_of i q = None ->
     status_of i (apply_op o q) = Some s' -> s' = Queued) /\
  (forall q o i s s',
     reachable q -> status_of i q = Some s ->
     status_of i (apply_op o q) = Some s' -> s' = s \/ transition s s') /\
  (forall q os i s s',
     reachable q -> status_of i q = Some s ->
     status_of i (run os q) = Some s' ->
     transitions s s' /\
     (is_terminal s = true -> s' = s) /\
     (s' = Queued -> s = Queued)).
Proof.
  split; [|split; [|split]].
  - intros q now p i q' Hr He.
    eapply enqueue_creates_Queued; eauto. apply reachable_well_formed; exact Hr.
  - intros q o i s' Hr Hn Hs.
    apply reachable_well_formed in Hr.
    destruct (apply_op_created o q i s' Hr Hn Hs) as [H _]. exact H.
  - intros q o i s s' Hr Hs Hs'.
    apply reachable_well_formed in Hr.
    destruct (apply_op_status o q i s Hr Hs) as [Hn|[Hsame|[s1 [H1 Ht]]]].
    + congruence.
    + left. congruence.
    + right. assert (s1 = s') by congruence. subst. exact Ht.
  - intros q os i s s' Hr Hs Hs'.
    apply reachable_well_formed in Hr.
    pose proof (run_status os q i s s' Hr Hs Hs') as Ht.
    split; [exact Ht|]. split.
    + apply transitions_from_terminal. exact Ht.
    + intros ->. apply transitions_to_Queued. exact Ht.
Qed.

(** A job that is submitted, taken by the worker and completed. *)
Lemma job_status_life_cycle_witness :
  reachable (run [Enqueue 1 (Raw "CLS")] empty) /\
  status_of 0 (run [Enqueue 1 (Raw "CLS")] empty) = Some Queued /\
  status_of 0 (run [DequeueNext; MarkCompleted 2 0]
                 (run [Enqueue 1 (Raw "CLS")] empty)) = Some Completed /\
  transitions Queued Completed.
Proof.
  assert (Hr : reachable (run [Enqueue 1 (Raw "CLS")] empty)).
  { apply run_reachable. apply reachable_empty. }
  split; [exact Hr|]. split; [reflexivity|]. split; [reflexivity|].
  exact (proj1 (proj2 (proj2 (proj2 job_status_life_cycle))
                 (run [Enqueue 1 (Raw "CLS")] empty)
                 [DequeueNext; MarkCompleted 2 0] 0%nat Queued Completed
                 Hr eq_refl eq_refl)).
Defined.

End JobQueueFacts.


(** * Walking through [main], path by path *)

(** One step along a path of a goal [m w st = (r, st') -> _]. *)
Ltac walk_step :=
  lazymatch goal with
  | |- print _ _ _ = _ -> _ => rewrite print_run by reflexivity
  | |- bind ?m _ _ _ = _ -> _ =>
      lazymatch m with
      | print _ => rewrite bind_print by reflexivity
      | ret _ => rewrite bind_ret
      | bind _ _ => rewrite bind_assoc
      | list_printers => change m with (run_op OpListPrinters)
      | get_printer_status => change m with (run_op OpStatus)
      | get_queue_stats => change m with (run_op OpStats)
      | connect_printer ?v ?p => change m with (run_op (OpConnect v p))
      | print_label ?d => change m with (run_op (OpPrintLabel d))
      | check_job_status ?i => change m with (run_op (OpCheckJob i))
      | list_jobs ?s ?l => change m with (run_op (OpListJobs s l))
      | if ?b then _ else _ => destruct b
      | lift ?r =>
          rewrite bind_lift;
          let H := fresh "Hlook" in destruct r as [?|?] eqn:H
      | time_sleep ?s =>
          rewrite bind_time_sleep; cbv beta; cbn [calls out];
          lazymatch goal with
          | |- context [sleeper ?w ?h s] =>
              let H := fresh "Hsleep" in
              destruct (sleeper w h s) as [[]|?] eqn:H
          end
      | run_op ?op =>
          first
            [ rewrite bind_run_op by reflexivity
            | let Hb := fresh "Hban" in
              destruct (print_error (banner_of op)) as [?|] eqn:Hb;
              [ rewrite (bind_run_op_fails op _ _ _ _ Hb)
              | rewrite bind_run_op by exact Hb ] ];
          cbv beta; cbn [calls out];
          try lazymatch goal with
          | |- context [http ?w ?h (request_of op)] =>
              let H := fresh "Hhttp" in
              let J := fresh "Hjson" in
              let resp := fresh "resp" in
              destruct (http w h (request_of op)) as [resp|?] eqn:H;
              [destruct (json resp) as [?|?] eqn:J|]
          end
      end
  end;
  cbv beta; cbn [calls out].

(** Splits a statement [main_body w st = (r, st') -> _] into one goal per
    path; each goal starts with the equation between the path's outcome and
    the outcome of the run. *)
Ltac walk_main :=
  unfold main_body; repeat walk_step.

Ltac norm_log :=
  cbn [calls out]; repeat rewrite <- app_assoc; cbn [app]; reflexivity.

(** Two lookups of the same thing gave the same value. *)
Ltac merge_equal :=
  repeat match goal with
    | H1 : ?x = Ok ?a, H2 : ?x = Ok ?b |- _ =>
        first
          [ constr_eq a b; clear H2
          | is_var b; assert (b = a) by congruence; subst b; clear H2 ]
    end.

Ltac itinerary_rest :=
  eexists;
  split; [norm_log|];
  split; [eexists; reflexivity|];
  split; [unfold main_itinerary, connect_block; cbn [app]; reflexivity|];
  split; [intros Hok; first [reflexivity | discriminate Hok]|];
  split; [cbn [all_but_last_answered call_answered];
          repeat split; first [eassumption | do 2 eexists; split; eassumption]|];
  split;
    [ first [ left; reflexivity
            | right; do 2 eexists; split; [reflexivity|];
              split; [do 3 eexists; repeat split; eassumption | eassumption] ]
    | split;
        [ first [ left; reflexivity
                | right; eexists; split; [reflexivity|];
                  do 3 eexists; repeat split; eassumption ]
        | split;
            [ let v := fresh "v" in
              let p := fresh "p" in
              intros v p (?resp & ?printers & ?printer & ? & ? & ? & ? & ? & ?) ?;
              first
                [ exfalso; congruence
                | merge_equal;
                  first [ exfalso; congruence | eexists; reflexivity ] ]
            | let v := fresh "v" in
              let p := fresh "p" in
              let e := fresh "e" in
              intros v p e (?resp & ?printers & ?printer & ? & ? & ? & ? & ? & ?) ?;
              first
                [ exfalso; congruence
                | merge_equal;
                  first [ exfalso; congruence
                        | split; [reflexivity | congruence] ] ] ] ] ].

(** ** The calls of a run *)

(** The calls of any run of the [try] body are an initial part of one of the
    four itineraries; the connect block is there only with the ids read from
    the listing, the job check only with the id read from the submit answer. *)
Lemma main_body_itinerary (w : env) (st : state) (r : result unit) (st' : state) :
  main_body w st = (r, st') ->
  exists new c j suffix,
    calls st' = calls st ++ new /\
    (exists rest, new = CHttp (request_of OpListPrinters) :: rest) /\
    new ++ suffix = main_itinerary c j /\
    (r = Ok tt -> suffix = []) /\
    all_but_last_answered w (calls st) new /\
    (c = [] \/
     exists v p, c = connect_block v p /\ printer_ids_from_listing w st v p /\
                 print_error (banner_of (OpConnect v p)) = None) /\
    (j = [] \/
     exists i, j = [CHttp (request_of (OpCheckJob i))] /\ job_id_from_submit w i) /\
    (forall v p,
       printer_ids_from_listing w st v p ->
       print_error (banner_of (OpConnect v p)) = None ->
       exists more,
         new = CHttp (request_of OpListPrinters) ::
               CHttp (request_of (OpConnect v p)) :: more) /\
    (forall v p e,
       printer_ids_from_listing w st v p ->
       print_error (banner_of (OpConnect v p)) = Some e ->
       new = [CHttp (request_of OpListPrinters)] /\ r = Raise e).
Proof.
  walk_main.
  all: intros H; apply pair_equal_spec in H; destruct H as [Hr Hst]; subst r st'.
  all: eexists.
  all: first
    [ solve [exists (@nil call), (@nil call); itinerary_rest]
    | solve [exists (@nil call); eexists [CHttp (request_of (OpCheckJob _))];
             itinerary_rest]
    | solve [eexists (connect_block _ _); exists (@nil call); itinerary_rest]
    | solve [eexists (connect_block _ _);
             eexists [CHttp (request_of (OpCheckJob _))]; itinerary_rest] ].
Qed.

Lemma main_itinerary_facts (w : env) (st : state) :
  exists new c j suffix,
    new_calls st (snd (main w st)) = new /\
    (exists rest, new = CHttp (request_of OpListPrinters) :: rest) /\
    new ++ suffix = main_itinerary c j /\
    (fst (main_body w st) = Ok tt -> suffix = []) /\
    all_but_last_answered w (calls st) new /\
    (c = [] \/
     exists v p, c = connect_block v p /\ printer_ids_from_listing w st v p /\
                 print_error (banner_of (OpConnect v p)) = None) /\
    (j = [] \/
     exists i, j = [CHttp (request_of (OpCheckJob i))] /\ job_id_from_submit w i) /\
    (forall v p,
       printer_ids_from_listing w st v p ->
       print_error (banner_of (OpConnect v p)) = None ->
       exists more,
         new = CHttp (request_of OpListPrinters) ::
               CHttp (request_of (OpConnect v p)) :: more) /\
    (forall v p e,
       printer_ids_from_listing w st v p ->
       print_error (banner_of (OpConnect v p)) = Some e ->
       new = [CHttp (request_of OpListPrinters)] /\
       fst (main_body w st) = Raise e).
Proof.
  destruct (main_body w st) as [r st'] eqn:Hb.
  destruct (main_body_itinerary w st r st' Hb)
    as [new [c [j [suffix [Hc [Hfirst [Hit [Hok [Hans [Hconn [Hjob [Hpos Hneg]]]]]]]]]]]].
  exists new, c, j, suffix. repeat split; auto.
  - apply new_calls_app. rewrite main_calls_body, Hb. exact Hc.
  - apply (Hneg v p e); assumption.
  - apply (Hneg v p e); assumption.
Qed.


Ltac split_itinerary H :=
  unfold main_itinerary, connect_block in H; cbn in H;
  repeat (destruct H as [H|H]; [try discriminate H|]); try contradiction.

Lemma itinerary_NoDup (c j : list call) :
  (c = [] \/ exists v p, c = connect_block v p) ->
  (j = [] \/ exists i, j = [CHttp (request_of (OpCheckJob i))]) ->
  NoDup (main_itinerary c j) /\ (List.length (main_itinerary c j) <= 8)%nat.
Proof.
  intros [->|[v [p ->]]] [->|[i ->]];
    (split; [|cbn; lia]);
    unfold main_itinerary, connect_block; cbn [app];
    repeat (constructor; [cbn; intuition discriminate|]); constructor.
Qed.

Lemma connect_in_itinerary (c j : list call) (v p : pyval) :
  (c = [] \/ exists v' p', c = connect_block v' p') ->
  (j = [] \/ exists i, j = [CHttp (request_of (OpCheckJob i))]) ->
  In (CHttp (request_of (OpConnect v p))) (main_itinerary c j) ->
  c = connect_block v p.
Proof.
  intros [->|[v' [p' ->]]] [->|[i ->]] H; split_itinerary H;
    injection H as -> ->; reflexivity.
Qed.

Lemma check_in_itinerary (c j : list call) (i : pyval) :
  (c = [] \/ exists v p, c = connect_block v p) ->
  (j = [] \/ exists i', j = [CHttp (request_of (OpCheckJob i'))]) ->
  In (CHttp (request_of (OpCheckJob i))) (main_itinerary c j) ->
  j = [CHttp (request_of (OpCheckJob i))].
Proof.
  intros [->|[v [p ->]]] [->|[i' ->]] H; split_itinerary H;
    injection H as ->; reflexivity.
Qed.

Lemma connect_block_inj (v p v' p' : pyval) :
  connect_block v p = connect_block v' p' -> v = v' /\ p = p'.
Proof. intros H. injection H as -> ->. auto. Qed.

(** X1: the calls of any run of [main] are an initial part of the itinerary
    list-printers, (connect, status), submit, sleep(2), (check-job), stats,
    list-jobs(limit=5), beginning with the listing request; when the [try]
    body returns normally the itinerary was walked to its end. *)
Theorem main_call_order (w : env) (st : state) :
  exists rest c j suffix,
    new_calls st (snd (main w st)) = CHttp (request_of OpListPrinters) :: rest /\
    (CHttp (request_of OpListPrinters) :: rest) ++ suffix = main_itinerary c j /\
    (c = [] \/ exists v p, c = connect_block v p) /\
    (j = [] \/ exists i, j = [CHttp (request_of (OpCheckJob i))]) /\
    (fst (main_body w st) = Ok tt -> suffix = []).
Proof.
  destruct (main_itinerary_facts w st)
    as [new [c [j [suffix [Hn [[rest Hr] [Hit [Hok [_ [Hc [Hj _]]]]]]]]]]].
  rewrite Hr in Hn, Hit. exists rest, c, j, suffix.
  split; [exact Hn|]. split; [exact Hit|]. split; [|split; [|exact Hok]].
  - destruct Hc as [->|[v [p [-> _]]]]; eauto.
  - destruct Hj as [->|[i [-> _]]]; eauto.
Qed.



(** X3: [main] asks for the status of a job only with the id it read from
    the answer to its submit request, and only when that id is truthy: a job
    the server numbers [0] or names [""] is never polled. *)
Theorem main_checks_only_submitted_job (w : env) (st : state) (i : pyval) :
  In (CHttp (request_of (OpCheckJob i))) (new_calls st (snd (main w st))) ->
  job_id_from_submit w i /\ truthy i = true.
Proof.
  destruct (main_itinerary_facts w st)
    as [new [c [j [suffix [Hn [_ [Hit [_ [_ [Hc [Hj _]]]]]]]]]]].
  rewrite Hn. intros Hin.
  assert (Hin' : In (CHttp (request_of (OpCheckJob i))) (main_itinerary c j)).
  { rewrite <- Hit. apply in_or_app. left. exact Hin. }
  assert (Hc' : c = [] \/ exists v p, c = connect_block v p).
  { destruct Hc as [->|[v [p [-> _]]]]; eauto. }
  assert (Hj' : j = [] \/ exists i', j = [CHttp (request_of (OpCheckJob i'))]).
  { destruct Hj as [->|[i' [-> _]]]; eauto. }
  pose proof (check_in_itinerary c j i Hc' Hj' Hin') as E.
  destruct Hj as [->|[i' [-> Hprov]]]; [discriminate E|].
  injection E as ->. split; [exact Hprov|].
  destruct Hprov as [h [resp [pj [_ [_ [Hguard Hid]]]]]].
  destruct (job_id_after_guard pj Hguard) as [i0 [Hid0 Ht]].
  congruence.
Qed.

(** The server answers the submit request with job 7: [main] polls job 7. *)
Lemma main_checks_only_submitted_job_witness :
  let w := constant_world (PDict [("job", PDict [("id", PInt 7)])]) in
  In (CHttp (request_of (OpCheckJob (PInt 7)))) (new_calls initial (snd (main w initial))) /\
  job_id_from_submit w (PInt 7) /\ truthy (PInt 7) = true.
Proof.
  intros w.
  assert (Hin : In (CHttp (request_of (OpCheckJob (PInt 7))))
                   (new_calls initial (snd (main w initial)))).
  { cbn. right. right. right. left. reflexivity. }
  split; [exact Hin|].
  exact (main_checks_only_submitted_job w initial (PInt 7) Hin).
Defined.

(** X4: a run of [main] never issues the same call twice (nothing is
    retried, also not by the error handlers), makes at most eight calls, and
    never touches the raw-job endpoint [/print/custom] or [/queue/clear]. *)
Theorem main_never_repeats_a_call (w : env) (st : state) :
  NoDup (new_calls st (snd (main w st))) /\
  (List.length (new_calls st (snd (main w st))) <= 8)%nat /\
  (forall r, In (CHttp r) (new_calls st (snd (main w st))) ->
     url r <> [Lit API_URL; Lit "/print/custom"] /\
     url r <> [Lit API_URL; Lit "/queue/clear"]).
Proof.
  destruct (main_itinerary_facts w st)
    as [new [c [j [suffix [Hn [_ [Hit [_ [_ [Hc [Hj _]]]]]]]]]]].
  rewrite Hn.
  assert (Hc' : c = [] \/ exists v p, c = connect_block v p).
  { destruct Hc as [->|[v [p [-> _]]]]; eauto. }
  assert (Hj' : j = [] \/ exists i', j = [CHttp (request_of (OpCheckJob i'))]).
  { destruct Hj as [->|[i' [-> _]]]; eauto. }
  destruct (itinerary_NoDup c j Hc' Hj') as [Hnd Hlen].
  rewrite <- Hit in Hnd, Hlen. split; [|split].
  - eapply NoDup_app_remove_r. exact Hnd.
  - rewrite length_app in Hlen. lia.
  - intros r Hin.
    destruct (main_emits w st) as [new' [Hc0 Hall]].
    rewrite (new_calls_app _ _ _ Hc0) in Hn. subst new'.
    rewrite Forall_forall in Hall. specialize (Hall _ Hin).
    destruct Hall as [Hs|[op [Hop Hm]]]; [discriminate Hs|].
    injection Hop as ->.
    destruct op; cbn in Hm; try contradiction; cbn; split; discriminate.
Qed.

Lemma all_but_last_answered_at (w : env) (before : list call) :
  forall h c after,
    after <> [] ->
    all_but_last_answered w h (before ++ c :: after) ->
    call_answered w (h ++ before) c.
Proof.
  induction before as [|a rest IH]; intros h c after Hne H.
  - rewrite app_nil_r. cbn in H.
    destruct after; [contradiction|]. apply H.
  - cbn [app all_but_last_answered] in H.
    destruct (rest ++ c :: after) eqn:E.
    + destruct rest; discriminate E.
    + rewrite <- E in H. destruct H as [_ H].
      specialize (IH (h ++ [a]) c after Hne H).
      rewrite <- app_assoc in IH. exact IH.
Qed.

(** X7: [main] stops at the first call that fails.  In any run, every call
    that is followed by another call was answered: the request returned a
    response whose body decoded, or the sleep returned.  So after a request
    that raised, or whose answer was not JSON, no further call is made. *)
Theorem main_stops_at_first_failure (w : env) (st : state) :
  all_but_last_answered w (calls st) (new_calls st (snd (main w st))) /\
  (forall before c after,
     new_calls st (snd (main w st)) = before ++ c :: after ->
     after <> [] ->
     call_answered w (calls st ++ before) c).
Proof.
  destruct (main_itinerary_facts w st)
    as [new [c [j [suffix [Hn [_ [_ [_ [Hans _]]]]]]]]].
  rewrite Hn. split; [exact Hans|].
  intros before c0 after E Hne. subst new. rewrite E in Hans.
  exact (all_but_last_answered_at w before (calls st) c0 after Hne Hans).
Qed.

(** ** The guard of the connect block can itself fail *)

Lemma cond_has_printer_raise_cases (printers : pyval) (e : exn) :
  cond_has_printer printers = Raise e <->
  (is_dict printers = false /\ e = AttributeError "object has no attribute 'get'") \/
  (exists items g,
     printers = PDict items /\ lookup "printers" items = Some g /\
     truthy_unsized g = true /\ e = TypeError "object has no len()").
Proof.
  split.
  - unfold cond_has_printer.
    destruct printers as [| | | | | |items]; cbn;
      try (intros H; injection H as <-; left; auto).
    destruct (lookup "printers" items) as [g|] eqn:Hl; cbn; [|discriminate].
    destruct (truthy g) eqn:Ht; [|discriminate].
    destruct g; cbn; try discriminate;
      intros H; injection H as <-; right; exists items; eexists;
      (split; [reflexivity|]); (split; [exact Hl|]); split; auto.
  - intros [[Hd ->]|[items [g [-> [Hl [Ht ->]]]]]].
    + destruct printers; try discriminate Hd; reflexivity.
    + unfold cond_has_printer. cbn. rewrite Hl.
      destruct g; cbn in Ht; try discriminate Ht; cbn; rewrite Ht; reflexivity.
Qed.

(** X5: the guard [printers.get('printers') and len(printers['printers']) > 0]
    raises exactly when the listing is not a JSON object ([AttributeError]) or
    its ['printers'] entry is a truthy boolean or number ([TypeError] from
    [len]).  [main] then prints the answer, the separator and one [Error:]
    line, makes no further call and returns normally. *)
Theorem main_guard_failure :
  (forall printers e,
     cond_has_printer printers = Raise e <->
     (is_dict printers = false /\
      e = AttributeError "object has no attribute 'get'") \/
     (exists items g,
        printers = PDict items /\ lookup "printers" items = Some g /\
        truthy_unsized g = true /\ e = TypeError "object has no len()")) /\
  (forall w st resp printers e,
     http w (calls st) (request_of OpListPrinters) = Ok resp ->
     json resp = Ok printers ->
     cond_has_printer printers = Raise e ->
     main w st =
       (Ok tt,
        mkState (calls st ++ [CHttp (request_of OpListPrinters)])
          (out st ++
             [[Lit ("=== Label Printer API Example ===" ++ nl)%string];
              [Lit "Listing available printers..."];
              [DumpsOf printers];
              separator;
              [Lit "Error: "; StrOfExn e]]))).
Proof.
  split; [exact cond_has_printer_raise_cases|].
  intros w st resp printers e Hh Hj Hc.
  assert (He : is_requests_ConnectionError e = false /\ is_Exception e = true).
  { apply cond_has_printer_raise_cases in Hc.
    destruct Hc as [[_ ->]|[items [g [_ [_ [_ ->]]]]]]; auto. }
  destruct He as [He1 He2].
  assert (Hb : main_body w st =
            (Raise e,
             mkState (calls st ++ [CHttp (request_of OpListPrinters)])
               ((((out st ++ [[Lit ("=== Label Printer API Example ===" ++ nl)%string]])
                    ++ [banner_of OpListPrinters])
                   ++ [echo_of OpListPrinters printers])
                  ++ [separator]))).
  { unfold main_body. rewrite bind_print by reflexivity.
    change list_printers with (run_op OpListPrinters).
    rewrite bind_run_op by reflexivity. cbn [calls out]. rewrite Hh, Hj.
    rewrite bind_print by reflexivity. rewrite bind_lift, Hc. reflexivity. }
  rewrite main_of_body, Hb, He1, He2. cbn [calls out banner_of echo_of].
  repeat rewrite <- app_assoc. reflexivity.
Qed.

(** A server that answers the listing with [{"printers": 3}]. *)
Lemma main_guard_failure_witness :
  let listing := PDict [("printers", PInt 3)] in
  cond_has_printer listing = Raise (TypeError "object has no len()") /\
  main (constant_world listing) initial =
    (Ok tt,
     mkState [CHttp (request_of OpListPrinters)]
       [[Lit ("=== Label Printer API Example ===" ++ nl)%string];
        [Lit "Listing available printers..."];
        [DumpsOf listing];
        separator;
        [Lit "Error: "; StrOfExn (TypeError "object has no len()")]]).
Proof.
  intros listing. split; [reflexivity|].
  exact (proj2 main_guard_failure (constant_world listing) initial
           (mkResponse (Ok listing)) listing (TypeError "object has no len()")
           eq_refl eq_refl eq_refl).
Defined.

(** ** What a run prints last *)

Ltac footer_leaf :=
  eexists;
  split; [norm_log|];
  split;
    [ intros Hok; first [discriminate Hok | reflexivity]
    | let e := fresh "e" in
      let Hr := fresh "Hr" in
      let Hin := fresh "Hin" in
      intros e Hr; first
        [ discriminate Hr
        | intros Hin; unfold completed_line in Hin; cbn in Hin;
          repeat (destruct Hin as [Hin|Hin]; [discriminate Hin|]);
          exact Hin ] ].

Lemma main_body_footer (w : env) (st : state) (r : result unit) (st' : state) :
  main_body w st = (r, st') ->
  exists lines,
    out st' = out st ++ lines /\
    (r = Ok tt -> last lines [] = completed_line) /\
    (forall e, r = Raise e -> ~ In completed_line lines).
Proof.
  walk_main.
  all: intros H; apply pair_equal_spec in H; destruct H as [Hr Hst]; subst r st'.
  all: footer_leaf.
Qed.

Lemma new_out_app (st st' : state) (lines : list text) :
  out st' = out st ++ lines -> new_out st st' = lines.
Proof.
  intros H. unfold new_out. rewrite H.
  rewrite skipn_app, skipn_all, Nat.sub_diag. reflexivity.
Qed.

Lemma last_app_nonempty {A} (l1 l2 : list A) (d : A) :
  l2 <> [] -> last (l1 ++ l2) d = last l2 d.
Proof.
  intros Hne. induction l1 as [|a rest IH]; [reflexivity|].
  cbn [app]. cbn [last]. destruct (rest ++ l2) eqn:E; [|exact IH].
  destruct rest; [cbn in E; contradiction | discriminate E].
Qed.

Lemma last_In {A} (l : list A) (d : A) : l <> [] -> In (last l d) l.
Proof.
  induction l as [|a rest IH]; [contradiction|].
  intros _. cbn [last]. destruct rest as [|b rest']; [left; reflexivity|].
  right. apply IH. discriminate.
Qed.

(** X6: [main] returns normally both after a complete run and after a caught
    failure; what tells them apart is the output.  The footer
    [=== Example completed ===] is printed exactly when the [try] body ran
    to its end, and is then the last line; after a caught [Exception] the last
    line is the port-3000 hint for a [requests] connection error and
    [Error: <exception>] otherwise. *)
Theorem main_footer (w : env) (st : state) :
  (In completed_line (new_out st (snd (main w st))) <->
   fst (main_body w st) = Ok tt) /\
  (fst (main_body w st) = Ok tt ->
   fst (main w st) = Ok tt /\
   last (out (snd (main w st))) [] = completed_line) /\
  (forall e,
     fst (main_body w st) = Raise e -> is_Exception e = true ->
     fst (main w st) = Ok tt /\
     last (out (snd (main w st))) [] =
       if is_requests_ConnectionError e
       then [Lit "Make sure the Label Printer Server is running on port 3000."]
       else [Lit "Error: "; StrOfExn e]).
Proof.
  destruct (main_body w st) as [r st1] eqn:Hb.
  destruct (main_body_footer w st r st1 Hb) as [lines [Hout [Hok Hbad]]].
  unfold main, try_except. rewrite Hb.
  destruct r as [[]|e]; cbv beta iota; cbn [fst snd].
  - specialize (Hok eq_refl).
    assert (Hne : lines <> []).
    { intros ->. discriminate Hok. }
    split; [|split].
    + rewrite (new_out_app _ _ _ Hout). split; [reflexivity|].
      intros _. rewrite <- Hok. apply last_In. exact Hne.
    + intros _. split; [reflexivity|].
      rewrite Hout, last_app_nonempty; auto.
    + intros e H. discriminate H.
  - specialize (Hbad e eq_refl). split; [|split].
    + split; [|discriminate]. intros Hin. exfalso.
      destruct (is_requests_ConnectionError e).
      * unfold bind, print in Hin. cbn in Hin.
        rewrite (new_out_app st _ (lines ++
          [[Lit "Error: Could not connect to API server."];
           [Lit "Make sure the Label Printer Server is running on port 3000."]])) in Hin.
        -- apply in_app_or in Hin. destruct Hin as [Hin|[Hin|[Hin|[]]]];
             [exact (Hbad Hin) | discriminate Hin | discriminate Hin].
        -- cbn. rewrite Hout, <- !app_assoc. reflexivity.
      * destruct (is_Exception e).
        -- unfold print in Hin. cbn in Hin.
           rewrite (new_out_app st _ (lines ++ [[Lit "Error: "; StrOfExn e]])) in Hin.
           ++ apply in_app_or in Hin. destruct Hin as [Hin|[Hin|[]]];
                [exact (Hbad Hin) | discriminate Hin].
           ++ cbn. rewrite Hout, <- app_assoc. reflexivity.
        -- cbn in Hin. rewrite (new_out_app _ _ _ Hout) in Hin. exact (Hbad Hin).
    + discriminate.
    + intros e0 He0 Hexc. injection He0 as <-. rewrite Hexc.
      destruct (is_requests_ConnectionError e).
      * unfold bind, print. cbn. split; [reflexivity|].
        rewrite last_app_nonempty; [reflexivity | discriminate].
      * unfold print. cbn. split; [reflexivity|].
        rewrite last_app_nonempty; [reflexivity | discriminate].
Qed.

(** Nothing listens on port 3000: the run ends with the hint. *)
Lemma main_footer_witness :
  fst (main_body server_down initial) =
    Raise (RequestsConnectionError "connection refused") /\
  fst (main server_down initial) = Ok tt /\
  last (out (snd (main server_down initial))) [] =
    [Lit "Make sure the Label Printer Server is running on port 3000."].
Proof.
  split; [reflexivity|].
  exact (proj2 (proj2 (main_footer server_down initial))
           (RequestsConnectionError "connection refused") eq_refl eq_refl).
Defined.

(** ** The guards of [main], seen from a run *)

Lemma py_getitem_raise_cases (v : pyval) (k : string) (e : exn) :
  py_getitem v k = Raise e -> e = KeyError (PStr k) \/ exists m, e = TypeError m.
Proof.
  destruct v as [| | | | | |items]; cbn;
    try (intros H; inversion H; right; eexists; reflexivity).
  destruct (lookup k items); intros H; inversion H; auto.
Qed.

Lemma cond_has_job_id_raise_cases (print_job : pyval) (e : exn) :
  cond_has_job_id print_job = Raise e ->
  e = AttributeError "object has no attribute 'get'".
Proof.
  unfold cond_has_job_id.
  destruct print_job as [| | | | | |items]; cbn;
    try (intros H; inversion H; reflexivity).
  destruct (lookup "job" items) as [j|]; cbn; [|discriminate].
  destruct (truthy j); [|discriminate].
  destruct j; cbn; intros H; inversion H; reflexivity.
Qed.

Lemma first_printer_raise_after_guard (printers : pyval) (e : exn) :
  cond_has_printer printers = Ok true ->
  expr_first_printer printers = Raise e -> e = KeyError (PInt 0).
Proof.
  intros Hg He.
  destruct (first_printer_after_guard printers Hg) as [items [p [_ [_ Hm]]]].
  destruct p; try contradiction.
  - destruct Hm as [x Hx]. congruence.
  - destruct Hm as [x [rest [_ Hx]]]. congruence.
  - congruence.
Qed.

Ltac own_error_leaf :=
  first
    [ left; left; do 2 eexists; eassumption
    | left; right; left; do 3 eexists; split; eassumption
    | left; right; right; do 2 eexists; eassumption
    | right; unfold main_own_error;
      lazymatch goal with
      | Hb : print_error _ = Some ?e |- context [?e = _] =>
          destruct (print_error_cases _ _ Hb) as [->| ->]; auto 10
      | H : cond_has_printer _ = Raise ?e |- context [?e = _] =>
          apply cond_has_printer_raise_cases in H;
          destruct H as [[_ ->]|(? & ? & _ & _ & _ & ->)]; eauto 10
      | H1 : cond_has_printer ?a = Ok true,
        H2 : expr_first_printer ?a = Raise ?e |- context [?e = _] =>
          rewrite (first_printer_raise_after_guard a e H1 H2); auto 10
      | H : py_getitem _ _ = Raise ?e |- context [?e = _] =>
          destruct (py_getitem_raise_cases _ _ _ H) as [->|[? ->]]; eauto 10
      | H : cond_has_job_id _ = Raise ?e |- context [?e = _] =>
          rewrite (cond_has_job_id_raise_cases _ _ H); auto 10
      | H1 : cond_has_job_id ?a = Ok true,
        H2 : expr_job_id ?a = Raise _ |- _ =>
          exfalso; destruct (job_id_after_guard a H1) as (? & ? & _); congruence
      end ].

(** What the [try] body raises was raised by the outside world or is one of
    the errors of its own unguarded accesses and banner prints. *)
Lemma main_body_own_errors (w : env) (st : state) (r : result unit) (st' : state) :
  main_body w st = (r, st') ->
  forall e, r = Raise e -> raised_by_env w e \/ main_own_error e.
Proof.
  walk_main.
  all: intros H; apply pair_equal_spec in H; destruct H as [Hr Hst]; subst r st'.
  all: intros e0 He0; first [discriminate He0 | injection He0 as <-].
  all: own_error_leaf.
Qed.

(** C10, as the code has it.  [printers['printers'][0]] is read only after
    the guard: it then never raises [IndexError] and succeeds whenever the
    entry is a list.  The job id is read only after the [.get] checks: that
    read then succeeds.  In a run of [main] this shows as follows: the ids of
    a connect request were read from a listing that passed the guard, the id
    of a job check from a submit answer that passed it, and what the [try]
    body raises of its own is never an [IndexError] and never a [KeyError]
    for ['printers'], ['job'] or ['id'], only the errors of the unguarded
    accesses ([.get] on a non-object, [len] of a number, [[0]] on an object,
    ['vendorId'], ['productId']) and of the two banners.  When the listing
    names no printer, [main] skips the connect and status calls and the
    submit request is the very next call.  Whenever steps 1 and 2 end without
    raising, listed printer or not, the submit request is the next call; and
    in every run whose [try] body completes, the submit request was sent. *)
Theorem main_guards :
  (forall printers,
     cond_has_printer printers = Ok true ->
     (forall msg, expr_first_printer printers <> Raise (IndexError msg)) /\
     (forall l, py_getitem printers "printers" = Ok (PList l) ->
        exists x rest, l = x :: rest /\ expr_first_printer printers = Ok x)) /\
  (forall print_job,
     cond_has_job_id print_job = Ok true ->
     exists i, expr_job_id print_job = Ok i /\ truthy i = true) /\
  (forall w st resp printers,
     http w (calls st) (request_of OpListPrinters) = Ok resp ->
     json resp = Ok printers ->
     cond_has_printer printers = Ok false ->
     exists rest,
       new_calls st (snd (main w st)) =
         CHttp (request_of OpListPrinters) ::
         CHttp (request_of (OpPrintLabel main_label_data)) :: rest /\
       (forall v p, ~ In (CHttp (request_of (OpConnect v p))) rest) /\
       ~ In (CHttp (request_of OpStatus)) rest) /\
  (forall w st st',
     main_body w st = (Ok tt, st') ->
     In (CHttp (request_of (OpPrintLabel main_label_data))) (new_calls st st')) /\
  (forall w st st1,
     main_before_submit w st = (Ok tt, st1) ->
     exists rest,
       new_calls st (snd (main w st)) =
         new_calls st st1 ++
         CHttp (request_of (OpPrintLabel main_label_data)) :: rest) /\
  (forall w st v p,
     In (CHttp (request_of (OpConnect v p))) (new_calls st (snd (main w st))) ->
     printer_ids_from_listing w st v p) /\
  (forall w st i,
     In (CHttp (request_of (OpCheckJob i))) (new_calls st (snd (main w st))) ->
     job_id_from_submit w i) /\
  (forall w st e st',
     main_body w st = (Raise e, st') ->
     (raised_by_env w e \/ main_own_error e) /\
     (~ raised_by_env w e ->
      (forall msg, e <> IndexError msg) /\
      e <> KeyError (PStr "printers") /\
      e <> KeyError (PStr "job") /\
      e <> KeyError (PStr "id"))).
Proof.
  split; [|split; [|split; [|split; [|split; [|split; [|split]]]]]].
  - intros printers H.
    destruct (first_printer_after_guard printers H) as [items [p [Hp [Hl Hm]]]].
    subst printers. split.
    + intros msg Hbad.
      destruct p; try contradiction.
      * destruct Hm as [x Hx]. congruence.
      * destruct Hm as [x [rest [_ Hx]]]. congruence.
      * congruence.
    + intros l Hg. cbn in Hg. rewrite Hl in Hg. inversion Hg; subst p.
      exact Hm.
  - exact job_id_after_guard.
  - intros w st resp printers Hh Hj Hc.
    destruct (main_before_submit_no_printer w st resp printers Hh Hj Hc)
      as [st1 [Hrun Hcalls]].
    destruct (main_from_submit_calls w st1) as [rest [Hrest Hlate]].
    exists rest. split; [|split].
    + apply new_calls_app. rewrite main_calls_body, main_body_two_parts.
      unfold bind at 1. rewrite Hrun, Hrest, Hcalls, <- app_assoc.
      reflexivity.
    + intros v p Hin. rewrite Forall_forall in Hlate.
      destruct (late_call_not_connect _ (Hlate _ Hin)) as [H1 _].
      exact (H1 v p eq_refl).
    + intros Hin. rewrite Forall_forall in Hlate.
      destruct (late_call_not_connect _ (Hlate _ Hin)) as [_ H2].
      exact (H2 eq_refl).
  - intros w st st' Hb. rewrite main_body_two_parts in Hb.
    destruct (bind_Ok_inv _ _ _ _ _ _ Hb) as [[] [st1 [H1 H2]]].
    destruct (main_before_submit_emits w st) as [n1 [E1 _]].
    rewrite H1 in E1. cbn in E1.
    destruct (main_from_submit_calls w st1) as [rest [Hrest _]].
    rewrite H2 in Hrest. cbn in Hrest.
    rewrite (new_calls_app st st' (n1 ++ CHttp (request_of (OpPrintLabel main_label_data)) :: rest)).
    + apply in_or_app. right. left. reflexivity.
    + rewrite Hrest, E1, <- app_assoc. reflexivity.
  - intros w st st1 Hrun.
    destruct (main_before_submit_emits w st) as [n1 [E1 _]].
    rewrite Hrun in E1. cbn in E1.
    destruct (main_from_submit_calls w st1) as [rest [Hrest _]].
    exists rest. rewrite (new_calls_app _ _ _ E1).
    apply new_calls_app. rewrite main_calls_body, main_body_two_parts.
    unfold bind at 1. rewrite Hrun, Hrest, E1, <- app_assoc. reflexivity.
  - intros w st v p Hin.
    destruct (main_itinerary_facts w st)
      as [new [c [j [suffix [Hn [_ [Hit [_ [_ [Hc [Hj _]]]]]]]]]]].
    rewrite Hn in Hin.
    assert (Hin' : In (CHttp (request_of (OpConnect v p))) (main_itinerary c j)).
    { rewrite <- Hit. apply in_or_app. left. exact Hin. }
    assert (Hc' : c = [] \/ exists v' p', c = connect_block v' p').
    { destruct Hc as [->|[v' [p' [-> _]]]]; eauto. }
    assert (Hj' : j = [] \/ exists i, j = [CHttp (request_of (OpCheckJob i))]).
    { destruct Hj as [->|[i [-> _]]]; eauto. }
    pose proof (connect_in_itinerary c j v p Hc' Hj' Hin') as E.
    destruct Hc as [->|[v' [p' [-> [Hprov _]]]]]; [discriminate E|].
    apply connect_block_inj in E. destruct E as [-> ->]. exact Hprov.
  - intros w st i Hin.
    destruct (main_itinerary_facts w st)
      as [new [c [j [suffix [Hn [_ [Hit [_ [_ [Hc [Hj _]]]]]]]]]]].
    rewrite Hn in Hin.
    assert (Hin' : In (CHttp (request_of (OpCheckJob i))) (main_itinerary c j)).
    { rewrite <- Hit. apply in_or_app. left. exact Hin. }
    assert (Hc' : c = [] \/ exists v p, c = connect_block v p).
    { destruct Hc as [->|[v [p [-> _]]]]; eauto. }
    assert (Hj' : j = [] \/ exists i', j = [CHttp (request_of (OpCheckJob i'))]).
    { destruct Hj as [->|[i' [-> _]]]; eauto. }
    pose proof (check_in_itinerary c j i Hc' Hj' Hin') as E.
    destruct Hj as [->|[i' [-> Hprov]]]; [discriminate E|].
    injection E as ->. exact Hprov.
  - intros w st e st' Hb.
    pose proof (main_body_own_errors w st _ st' Hb e eq_refl) as Hown.
    split; [exact Hown|].
    intros Hnot. destruct Hown as [Henv|Hown]; [contradiction|].
    unfold main_own_error in Hown.
    repeat split; intros; intros ->;
      repeat (destruct Hown as [Hown|Hown]; try discriminate Hown);
      try discriminate Hown;
      destruct Hown as [m Hm]; discriminate Hm.
Qed.

(** A server that lists no printer: the submit request comes second.  A
    server that lists one and answers the connect and status requests: the
    submit request comes fourth. *)
Lemma main_guards_witness :
  (cond_has_printer (PDict [("printers", PList [])]) = Ok false /\
   exists rest,
     new_calls initial
       (snd (main (constant_world (PDict [("printers", PList [])])) initial)) =
       CHttp (request_of OpListPrinters) ::
       CHttp (request_of (OpPrintLabel main_label_data)) :: rest /\
     (forall v p, ~ In (CHttp (request_of (OpConnect v p))) rest) /\
     ~ In (CHttp (request_of OpStatus)) rest) /\
  (let listing :=
     PDict [("printers",
             PList [PDict [("vendorId", PInt 1155); ("productId", PInt 22339)]])] in
   let w := listing_world listing (PDict []) in
   exists st1 rest,
     main_before_submit w initial = (Ok tt, st1) /\
     new_calls initial st1 =
       [CHttp (request_of OpListPrinters);
        CHttp (request_of (OpConnect (PInt 1155) (PInt 22339)));
        CHttp (request_of OpStatus)] /\
     new_calls initial (snd (main w initial)) =
       new_calls initial st1 ++
       CHttp (request_of (OpPrintLabel main_label_data)) :: rest).
Proof.
  split.
  - split; [reflexivity|].
    apply (proj1 (proj2 (proj2 main_guards))
             (constant_world (PDict [("printers", PList [])])) initial
             (mkResponse (Ok (PDict [("printers", PList [])])))
             (PDict [("printers", PList [])]));
      reflexivity.
  - intros listing w.
    destruct (main_before_submit w initial) as [r st1] eqn:Hrun.
    assert (Hr : r = Ok tt) by (apply (f_equal fst) in Hrun; exact (eq_sym Hrun)).
    subst r.
    assert (Hc : new_calls initial st1 =
                   [CHttp (request_of OpListPrinters);
                    CHttp (request_of (OpConnect (PInt 1155) (PInt 22339)));
                    CHttp (request_of OpStatus)]).
    { apply (f_equal snd) in Hrun. cbn [snd] in Hrun. rewrite <- Hrun. reflexivity. }
    destruct (proj1 (proj2 (proj2 (proj2 (proj2 main_guards)))) w initial st1 Hrun)
      as [rest Hrest].
    exists st1, rest. split; [reflexivity|]. split; [exact Hc | exact Hrest].
Defined.

(** C10, as stated, fails.  A listing whose first printer has no [vendorId]
    passes the guard, and [printer['vendorId']] raises [KeyError]; a listing
    whose ['printers'] entry is a non-empty object passes the guard, and
    [printers['printers'][0]] itself raises [KeyError].  In both runs a lookup
    error occurs inside [main] and the print job is never submitted.  Nor is
    it when the listing is a bare array, on which [.get] does not exist. *)
Lemma main_lookup_error_skips_submit :
  (cond_has_printer (PDict [("printers", PList [PDict []])]) = Ok true /\
   fst (main_body anonymous_printer_world initial) =
     Raise (KeyError (PStr "vendorId")) /\
   is_LookupError (KeyError (PStr "vendorId")) = true /\
   calls (snd (main anonymous_printer_world initial)) =
     [CHttp (request_of OpListPrinters)] /\
   ~ In (CHttp (request_of (OpPrintLabel main_label_data)))
        (calls (snd (main anonymous_printer_world initial)))) /\
  (cond_has_printer (PDict [("printers", PDict [("first", PDict [])])]) = Ok true /\
   expr_first_printer (PDict [("printers", PDict [("first", PDict [])])]) =
     Raise (KeyError (PInt 0)) /\
   fst (main_body printers_object_world initial) = Raise (KeyError (PInt 0)) /\
   ~ In (CHttp (request_of (OpPrintLabel main_label_data)))
        (calls (snd (main printers_object_world initial)))) /\
  (fst (main_body (constant_world (PList [])) initial) =
     Raise (AttributeError "object has no attribute 'get'") /\
   ~ In (CHttp (request_of (OpPrintLabel main_label_data)))
        (calls (snd (main (constant_world (PList [])) initial)))).
Proof.
  repeat split; try reflexivity;
    cbn; intros [H|[]]; discriminate H.
Qed.
